(** * jumppad: resource lifecycle core

    A shallow embedding of the parts of the repository that the
    specification speaks about:

    - [pkg/utils/dirhash/hash.go]: [Hash1], [DirFiles], [HashDir], [HashZip];
    - [pkg/clients/command.go]: [CommandImpl.Execute] with its goroutine,
      [CommandImpl.Kill];
    - [pkg/config/resources/exec/provider.go]: [Provider.Create] with
      [createRemoteExec], [createRemoteExecContainer] and
      [createLocalExec], [Provider.Destroy], [Provider.Changed];
    - the [Process] hooks of [RandomUUID], [NomadJob] and [Exec];
    - the [down] command of package [cmd].

    Go values are modelled as follows.  A Go [string] is a [string]
    (a sequence of bytes), a Go [int] is a [Z], a [[]string] whose
    aliasing does not matter is a [list string], and one whose aliasing
    matters is a [slice] into a heap of backing arrays.  A Go [error]
    is an [error]; a function returning [(T, error)] where the value is
    meaningless on failure returns a [result T]. *)

From Stdlib Require Import ZArith List Ascii String Lia.
From Stdlib Require DecimalString DecimalZ DecimalPos.
From stdpp Require Import base option list gmap strings sorting.

Import ListNotations.

(** ** Errors and results *)

(** Go compares errors by identity.  [ErrorCommandTimeout] is the
    package-level sentinel of [command.go]; every other error is built
    at the place that reports it (by [fmt.Errorf], [errors.New], the
    operating system or a library) and is never identical to the
    sentinel. *)
Inductive error : Type :=
  | ErrorCommandTimeout
  | ErrorOf (msg : string).

Global Instance error_eq_dec : EqDecision error.
Proof. solve_decision. Defined.

(** The outcome of a call returning [(T, error)]: a value with a nil
    error, a non-nil error, or a run-time panic (an index out of range,
    a failed type assertion). *)
Inductive result (A : Type) : Type :=
  | Ok (a : A)
  | Err (e : error)
  | Panic (msg : string).
Arguments Ok {A} a.
Arguments Err {A} e.
Arguments Panic {A} msg.

Definition bind {A B} (r : result A) (k : A -> result B) : result B :=
  match r with
  | Ok a => k a
  | Err e => Err e
  | Panic m => Panic m
  end.

Notation "'let*' x := r 'in' k" := (bind r (fun x => k))
  (at level 10, x pattern, r at level 100, k at level 200).

(** ** The [strings] package *)

(** [strings.HasPrefix(s, prefix)]. *)
Definition strings_HasPrefix (s prefix : string) : bool := String.prefix prefix s.

(** [strings.Contains(s, substr)]: [substr] starts at some offset of [s]. *)
Fixpoint strings_Contains (s substr : string) : bool :=
  strings_HasPrefix s substr ||
  match s with
  | EmptyString => false
  | String _ s' => strings_Contains s' substr
  end.

(** [strings.TrimPrefix(s, prefix)]. *)
Definition strings_TrimPrefix (s prefix : string) : string :=
  if strings_HasPrefix s prefix
  then String.substring (String.length prefix) (String.length s - String.length prefix) s
  else s.

(** The newline, U+000A. *)
Definition newline : string := String (ascii_of_nat 10) EmptyString.

(** [sort.Strings]: ascending byte-wise lexicographic order.  The order
    is total and antisymmetric, so the sorted arrangement of a list is
    unique and the algorithm that produces it does not matter. *)
Definition sort_Strings (l : list string) : list string := merge_sort String.le l.

(** ** Slices and their backing arrays *)

(** A [[]string] is a window on a backing array; two slices that share
    an array see each other's writes.  The heap maps the address of
    every allocated array to its elements. *)
Module Slices.

Abbreviation heap := (gmap nat (list string)).

Inductive slice : Type :=
  | nil_slice
  | Slice (array offset len : nat).

(** The elements a slice shows. *)
Definition elems (m : heap) (s : slice) : list string :=
  match s with
  | nil_slice => []
  | Slice a off n =>
      match m !! a with
      | Some l => take n (drop off l)
      | None => []
      end
  end.

(** [append([]string(nil), s...)]: appending nothing to nil gives nil;
    otherwise the elements go to a newly allocated array (its spare
    capacity, if any, is never read and is left out). *)
Definition append_nil (s : slice) (m : heap) : slice * heap :=
  match elems m s with
  | [] => (nil_slice, m)
  | l => let a := fresh (dom m) in (Slice a 0 (length l), <[a := l]> m)
  end.

(** [sort.Strings(s)] sorts the window in place. *)
Definition sort_Strings_inplace (s : slice) (m : heap) : heap :=
  match s with
  | nil_slice => m
  | Slice a off n =>
      match m !! a with
      | Some l =>
          <[a := take off l ++ sort_Strings (take n (drop off l)) ++ drop (off + n) l]> m
      | None => m
      end
  end.

End Slices.

(** * Package dirhash *)

Module Dirhash.

(** An opened file: what [io.Copy] gets out of it, either all of its
    bytes or a read error. *)
Definition ReadCloser : Type := result string.

Section Hash.

(** [crypto/sha256], the [%x] verb and [base64.StdEncoding] are
    libraries outside the repository. *)
Variable sha256_Sum : string -> string.
Variable hex : string -> string.
Variable base64_EncodeToString : string -> string.

(** [fmt.Fprintf(h, "%x  %s\n", hf.Sum(nil), file)]: the line written
    to the outer hash. *)
Definition summary_line (content file : string) : string :=
  hex (sha256_Sum content) +:+ "  " +:+ file +:+ newline.

(** The loop of [Hash1] over the sorted names; [h] is what has been
    written to the outer hash so far. *)
Fixpoint Hash1_loop (open : string -> result ReadCloser) (h : string)
    (files : list string) : result string :=
  match files with
  | [] => Ok h
  | file :: rest =>
      if strings_Contains file newline
      then Err (ErrorOf "dirhash: filenames with newlines are not supported")
      else
        let* r := open file in
        let* data := r in
        Hash1_loop open (h +:+ summary_line data file) rest
  end.

(** [Hash1] on the elements of its argument.  The copy made by
    [append([]string(nil), files...)] has the same elements; what that
    line does to memory is in [Hash1_mem] below. *)
Definition Hash1 (files : list string) (open : string -> result ReadCloser)
    : result string :=
  let files := sort_Strings files in
  let* h := Hash1_loop open "" files in
  Ok ("h1:" +:+ base64_EncodeToString (sha256_Sum h)).

(** [Hash1] as it acts on memory: the first statement rebinds the
    local [files] to a copy, which is the slice that gets sorted. *)
Definition Hash1_mem (files : Slices.slice) (open : string -> result ReadCloser)
    (m : Slices.heap) : result string * Slices.heap :=
  let '(files, m) := Slices.append_nil files m in
  let m := Slices.sort_Strings_inplace files m in
  (let* h := Hash1_loop open "" (Slices.elems m files) in
   Ok ("h1:" +:+ base64_EncodeToString (sha256_Sum h)), m).

(** ** The file system, as [symwalk.Walk] and [os.Open] see it *)

(** What is found at a path: a regular file (or a link to one), a
    directory (or a link to one: [symwalk] follows it and reports what
    is beneath under the link's own path) with its entries in the order
    of enumeration, or something that cannot be examined. *)
Unset Elimination Schemes.
Inductive node : Type :=
  | File (name : string)
  | Dir (name : string) (entries : list node)
  | Inaccessible (name : string) (e : error).
Set Elimination Schemes.

Definition node_name (n : node) : string :=
  match n with
  | File name => name
  | Dir name _ => name
  | Inaccessible name _ => name
  end.

(** One call of the walk function: [(file, info, err)]. *)
Record WalkEntry : Type := {
  path : string;
  IsDir : bool;
  lstat_err : option error
}.

(** The walk stops at the first error the walk function returns. *)
Fixpoint Walk {S : Type} (walkFn : S -> WalkEntry -> result S)
    (calls : list WalkEntry) (st : S) : result S :=
  match calls with
  | [] => Ok st
  | c :: rest => let* st := walkFn st c in Walk walkFn rest st
  end.

(** An entry of a zip archive: its name, some of the metadata the
    format records, and what [Open] gives. *)
Record zip_File : Type := {
  Name : string;
  Method : Z;
  Modified : Z;
  ExternalAttrs : Z;
  Open : result ReadCloser
}.

Record FileSystem : Type := {
  (** what [symwalk.Walk] finds at a path *)
  fs_at : string -> node;
  (** [os.Open] *)
  os_Open : string -> result ReadCloser;
  (** [zip.OpenReader]: the entries of the archive, in its order *)
  zip_OpenReader : string -> result (list zip_File)
}.

(** A directory hash function. *)
Definition Hash : Type := list string -> (string -> result ReadCloser) -> result string.

(** [path/filepath] and [github.com/ryanuber/go-glob] are libraries
    outside the repository. *)
Variable filepath_Clean : string -> string.
Variable filepath_Join : string -> string -> string.
Variable filepath_ToSlash : string -> string.
Variable glob_Glob : string -> string -> bool.

(** The calls [symwalk.Walk] makes for the tree found at [p], in order:
    a directory before what it holds, each entry under the path
    [filepath.Join(p, name)]. *)
Fixpoint walk_entries (p : string) (n : node) : list WalkEntry :=
  match n with
  | File _ => [{| path := p; IsDir := false; lstat_err := None |}]
  | Dir _ entries =>
      {| path := p; IsDir := true; lstat_err := None |} ::
      flat_map (fun c => walk_entries (filepath_Join p (node_name c)) c) entries
  | Inaccessible _ e => [{| path := p; IsDir := false; lstat_err := Some e |}]
  end.

(** The variables the walk function of [DirFiles] closes over. *)
Record walk_state : Type := {
  ignoredDirectories : list string;
  files : list string
}.

(** [file[len(dir)+1:]], unless [dir] is ["."]. *)
Definition relative (dir file : string) : result string :=
  if String.eqb dir "." then Ok file
  else if String.length file <? String.length dir + 1
       then Panic "slice bounds out of range"
       else Ok (String.substring (String.length dir + 1)
                  (String.length file - (String.length dir + 1)) file).

(** The name a surviving file gets. *)
Definition logical_name (dir prefix file : string) : result string :=
  let* rel := relative dir file in
  let f := filepath_Join prefix rel in
  Ok (filepath_ToSlash f).

(** The walk function of [DirFiles]. *)
Definition walkFn (dir prefix : string) (ignore : list string)
    (st : walk_state) (c : WalkEntry) : result walk_state :=
  match lstat_err c with
  | Some err => Err err
  | None =>
      if existsb (fun i => glob_Glob i (path c)) ignore then
        if IsDir c
        then Ok {| ignoredDirectories := ignoredDirectories st ++ [path c];
                   files := files st |}
        else Ok st
      else if IsDir c then Ok st
      else if String.eqb (path c) dir
      then Err (ErrorOf (dir +:+ " is not a directory"))
      else if existsb (fun i => strings_HasPrefix (path c) i) (ignoredDirectories st)
      then Ok st
      else
        let* f := logical_name dir prefix (path c) in
        Ok {| ignoredDirectories := ignoredDirectories st;
              files := files st ++ [f] |}
  end.

Definition DirFiles (fs : FileSystem) (dir prefix : string) (ignore : list string)
    : result (list string) :=
  let dir := filepath_Clean dir in
  let* st := Walk (walkFn dir prefix ignore) (walk_entries dir (fs_at fs dir))
               {| ignoredDirectories := []; files := [] |} in
  Ok (files st).

Definition HashDir (fs : FileSystem) (dir prefix : string) (hash : Hash)
    (ignore : list string) : result string :=
  let* files := DirFiles fs dir prefix ignore in
  let osOpen name := os_Open fs (filepath_Join dir (strings_TrimPrefix name prefix)) in
  hash files osOpen.

(** The loop of [HashZip] over [z.File]. *)
Definition zip_index (z : list zip_File) : list string * gmap string zip_File :=
  foldl (fun '(files, zfiles) file => (files ++ [Name file], <[Name file := file]> zfiles))
        ([], ∅) z.

Definition HashZip (fs : FileSystem) (zipfile : string) (hash : Hash) : result string :=
  let* z := zip_OpenReader fs zipfile in
  let '(files, zfiles) := zip_index z in
  let zipOpen name :=
    match zfiles !! name with
    | None => Err (ErrorOf ("file " +:+ name +:+ " not found in zip"))
    | Some f => Open f
    end in
  hash files zipOpen.

(** ** Facts about [Hash1] *)

Lemma sort_Strings_Permutation (l : list string) : sort_Strings l ≡ₚ l.
Proof. apply merge_sort_Permutation. Qed.

Lemma sort_Strings_Sorted (l : list string) : Sorted String.le (sort_Strings l).
Proof. apply (Sorted_merge_sort String.le). Qed.

(** Two arrangements of the same names sort to the same list. *)
Lemma sort_Strings_unique (l1 l2 : list string) :
  l1 ≡ₚ l2 -> sort_Strings l1 = sort_Strings l2.
Proof.
  intros Hp.
  apply (Sorted_unique String.le); try apply sort_Strings_Sorted.
  by rewrite !sort_Strings_Permutation.
Qed.

Lemma sort_Strings_elem_of (l : list string) (x : string) :
  x ∈ sort_Strings l <-> x ∈ l.
Proof. by rewrite sort_Strings_Permutation. Qed.

(** [Hash1_loop] opens the listed names only. *)
Lemma Hash1_loop_ext (open1 open2 : string -> result ReadCloser) (l : list string) :
  (forall f, f ∈ l -> open1 f = open2 f) ->
  forall h, Hash1_loop open1 h l = Hash1_loop open2 h l.
Proof.
  induction l as [|f l IH]; intros Hopen h; [done|].
  cbn [Hash1_loop].
  rewrite (Hopen f) by left.
  destruct (strings_Contains f newline); [done|].
  destruct (open2 f) as [r| |]; cbn [bind]; [|done..].
  destruct r as [data| |]; cbn [bind]; [|done..].
  apply IH. intros g Hg. apply Hopen. by right.
Qed.

Lemma Hash1_ext (open1 open2 : string -> result ReadCloser) (l : list string) :
  (forall f, f ∈ l -> open1 f = open2 f) ->
  Hash1 l open1 = Hash1 l open2.
Proof.
  intros Hopen. unfold Hash1.
  rewrite (Hash1_loop_ext open1 open2); [done|].
  intros f Hf. apply Hopen. by apply sort_Strings_elem_of.
Qed.

Lemma Hash1_Permutation (l1 l2 : list string) (open : string -> result ReadCloser) :
  l1 ≡ₚ l2 -> Hash1 l1 open = Hash1 l2 open.
Proof. intros Hp. unfold Hash1. by rewrite (sort_Strings_unique l1 l2). Qed.

(** ** [Hash1] and the caller's memory *)

Lemma append_nil_elems (s : Slices.slice) (m : Slices.heap) :
  Slices.elems (Slices.append_nil s m).2 (Slices.append_nil s m).1 = Slices.elems m s.
Proof.
  unfold Slices.append_nil.
  destruct (Slices.elems m s) as [|x l] eqn:E; [done|].
  cbn [fst snd Slices.elems]. rewrite lookup_insert_eq.
  by rewrite drop_0, firstn_all.
Qed.

Lemma append_nil_fresh (s : Slices.slice) (m : Slices.heap) (a : nat) :
  is_Some (m !! a) -> (Slices.append_nil s m).2 !! a = m !! a.
Proof.
  intros Ha. unfold Slices.append_nil.
  destruct (Slices.elems m s) as [|x l]; [done|].
  cbn [snd]. apply lookup_insert_ne.
  intros <-. apply elem_of_dom in Ha. by apply is_fresh in Ha.
Qed.

(** The copy never shares its array with an allocated one. *)
Lemma append_nil_private (s : Slices.slice) (m : Slices.heap) (a off n : nat) :
  (Slices.append_nil s m).1 = Slices.Slice a off n -> m !! a = None.
Proof.
  unfold Slices.append_nil.
  destruct (Slices.elems m s) as [|x l]; [done|].
  cbn [fst]. intros [= <- <- <-].
  apply not_elem_of_dom, is_fresh.
Qed.

Lemma sort_Strings_inplace_other (s : Slices.slice) (m : Slices.heap) (a : nat) :
  match s with Slices.Slice b _ _ => a <> b | Slices.nil_slice => True end ->
  Slices.sort_Strings_inplace s m !! a = m !! a.
Proof.
  destruct s as [|b off n]; [done|]. intros Hne. cbn.
  destruct (m !! b); [|done]. by rewrite lookup_insert_ne.
Qed.

Lemma sort_Strings_inplace_whole (m : Slices.heap) (a : nat) (l : list string) :
  m !! a = Some l ->
  Slices.elems (Slices.sort_Strings_inplace (Slices.Slice a 0 (length l)) m)
               (Slices.Slice a 0 (length l)) = sort_Strings l.
Proof.
  intros Hl. cbn. rewrite Hl, lookup_insert_eq.
  cbn [take drop]. rewrite drop_0, firstn_all, drop_all, app_nil_r, drop_0.
  apply take_ge. by rewrite (Permutation_length (sort_Strings_Permutation l)).
Qed.

(** On results, [Hash1_mem] is [Hash1] of the elements it was given. *)
Lemma Hash1_mem_result (files : Slices.slice) (open : string -> result ReadCloser)
    (m : Slices.heap) :
  (Hash1_mem files open m).1 = Hash1 (Slices.elems m files) open.
Proof.
  unfold Hash1_mem, Hash1, Slices.append_nil.
  destruct (Slices.elems m files) as [|x l] eqn:E; [done|].
  cbn [fst].
  set (a := fresh (dom m)).
  pose proof (sort_Strings_inplace_whole (<[a := x :: l]> m) a (x :: l)) as Hs.
  rewrite Hs by apply lookup_insert_eq. done.
Qed.

(** Sorting the caller's own slice would be visible to the caller: the
    copy is what keeps [Hash1] from doing so. *)
Example sort_Strings_inplace_is_visible :
  let m : Slices.heap := {[ 0 := ["b"; "a"] ]} in
  let s := Slices.Slice 0 0 2 in
  Slices.elems m s = ["b"; "a"] /\
  Slices.elems (Slices.sort_Strings_inplace s m) s = ["a"; "b"].
Proof. split; vm_compute; reflexivity. Qed.

(** C10. [Hash1] leaves its caller's file list as it was: after the
    call the slice that was passed shows the same elements, and every
    array that was allocated before the call holds what it held (the
    only array written is the private copy that gets sorted). *)
Theorem Hash1_leaves_input_unchanged (files : Slices.slice)
    (open : string -> result ReadCloser) (m : Slices.heap) :
  Slices.elems (Hash1_mem files open m).2 files = Slices.elems m files /\
  m ⊆ (Hash1_mem files open m).2.
Proof.
  unfold Hash1_mem.
  destruct (Slices.append_nil files m) as [copy m1] eqn:Hcopy.
  cbn [snd].
  assert (Hframe : m ⊆ Slices.sort_Strings_inplace copy m1).
  { apply map_subseteq_spec. intros a l Ha.
    pose proof (append_nil_fresh files m a (mk_is_Some _ _ Ha)) as H1.
    pose proof (append_nil_private files m) as H2.
    rewrite Hcopy in H1, H2. cbn [fst snd] in H1, H2.
    rewrite sort_Strings_inplace_other; [congruence|].
    destruct copy as [|b off n]; [done|].
    intros ->. specialize (H2 b off n eq_refl). congruence. }
  split; [|done].
  destruct files as [|a off n]; [done|]. cbn [Slices.elems].
  destruct (m !! a) as [l|] eqn:Ha.
  - by rewrite (lookup_weaken _ _ _ _ Ha Hframe).
  - unfold Slices.append_nil in Hcopy. cbn [Slices.elems] in Hcopy.
    rewrite Ha in Hcopy. injection Hcopy as <- <-. cbn. by rewrite Ha.
Qed.

(** ** Facts about [HashZip] *)

Lemma zip_index_names (z : list zip_File) : (zip_index z).1 = map Name z.
Proof.
  unfold zip_index. induction z as [|f z IH] using rev_ind; [done|].
  rewrite foldl_app, map_app. cbn [foldl].
  destruct (foldl _ _ z) as [fl zf]. cbn [fst] in *. by rewrite IH.
Qed.

(** The map of [HashZip] holds, under each name, an entry of that name. *)
Lemma zip_index_lookup (z : list zip_File) (n : string) :
  n ∈ map Name z ->
  exists f, f ∈ z /\ Name f = n /\ (zip_index z).2 !! n = Some f.
Proof.
  unfold zip_index. induction z as [|f z IH] using rev_ind.
  { intros H. by apply elem_of_nil in H. }
  rewrite foldl_app, map_app. cbn [foldl map].
  destruct (foldl _ _ z) as [fl zf]. cbn [snd] in *.
  intros Hn. destruct (decide (Name f = n)) as [<-|Hne].
  - exists f. rewrite lookup_insert_eq. split; [|done].
    apply elem_of_app. right. by left.
  - apply elem_of_app in Hn as [Hn|Hn].
    + destruct (IH Hn) as (g & Hg & Hname & Hl). exists g.
      rewrite lookup_insert_ne by done. split; [|done].
      apply elem_of_app. by left.
    + apply list_elem_of_singleton in Hn. congruence.
Qed.

(** The map depends on the names and on what the entries open to, and
    on nothing else an entry records. *)
Lemma zip_index_Open (z1 z2 : list zip_File) (n : string) :
  map (fun f => (Name f, Open f)) z1 = map (fun f => (Name f, Open f)) z2 ->
  Open <$> ((zip_index z1).2 !! n) = Open <$> ((zip_index z2).2 !! n).
Proof.
  unfold zip_index. revert z2.
  induction z1 as [|f1 z1 IH] using rev_ind; intros z2 Hz.
  { destruct z2; [done|discriminate]. }
  destruct z2 as [|f2 z2 _] using rev_ind.
  { rewrite map_app in Hz. by destruct (map _ z1). }
  rewrite !map_app in Hz. cbn [map] in Hz.
  apply app_inj_tail in Hz as [Hz [= Hname Hopen]].
  rewrite !foldl_app. cbn [foldl].
  specialize (IH z2 Hz).
  destruct (foldl _ _ z1) as [fl1 zf1], (foldl _ _ z2) as [fl2 zf2].
  cbn [snd] in *. rewrite Hname.
  destruct (decide (Name f2 = n)) as [->|Hne].
  - rewrite !lookup_insert_eq. cbn. by rewrite Hopen.
  - by rewrite !lookup_insert_ne.
Qed.

Lemma HashDir_unfold (fs : FileSystem) (dir prefix : string) (hash : Hash)
    (ignore files : list string) :
  DirFiles fs dir prefix ignore = Ok files ->
  HashDir fs dir prefix hash ignore =
  hash files (fun name => os_Open fs (filepath_Join dir (strings_TrimPrefix name prefix))).
Proof. intros H. unfold HashDir. by rewrite H. Qed.

Lemma HashZip_unfold (fs : FileSystem) (zipfile : string) (z : list zip_File) :
  zip_OpenReader fs zipfile = Ok z ->
  HashZip fs zipfile Hash1 =
  Hash1 (map Name z)
    (fun name => match (zip_index z).2 !! name with
                 | None => Err (ErrorOf ("file " +:+ name +:+ " not found in zip"))
                 | Some f => Open f
                 end).
Proof.
  intros H. unfold HashZip. rewrite H. cbn [bind].
  pose proof (zip_index_names z) as Hn.
  destruct (zip_index z) as [fl zf]. cbn [fst snd] in *. by rewrite Hn.
Qed.

(** C5. [Hash1] gives the same outcome for every arrangement of the
    same file names, the per-file contents being fixed by [open]; hence
    two enumerations of a tree whose files have not changed, and which
    list the same names in different orders, get the same [HashDir]. *)
Theorem Hash1_order_independent :
  (forall (l1 l2 : list string) (open : string -> result ReadCloser),
     l1 ≡ₚ l2 -> Hash1 l1 open = Hash1 l2 open) /\
  (forall (fs1 fs2 : FileSystem) (dir prefix : string) (ignore l1 l2 : list string),
     os_Open fs1 = os_Open fs2 ->
     DirFiles fs1 dir prefix ignore = Ok l1 ->
     DirFiles fs2 dir prefix ignore = Ok l2 ->
     l1 ≡ₚ l2 ->
     HashDir fs1 dir prefix Hash1 ignore = HashDir fs2 dir prefix Hash1 ignore).
Proof.
  split.
  - intros l1 l2 open Hp. by apply Hash1_Permutation.
  - intros fs1 fs2 dir prefix ignore l1 l2 Hopen H1 H2 Hp.
    rewrite (HashDir_unfold fs1 _ _ _ _ l1 H1), (HashDir_unfold fs2 _ _ _ _ l2 H2).
    rewrite Hopen. by apply Hash1_Permutation.
Qed.

(** Where [HashDir] and [HashZip] do agree.  [HashDir] reads the bytes
    of a listed name from the file at [dir] joined with the name less
    the prefix.  When the archive's entry names are the names [DirFiles]
    lists for the tree (in any order) and every entry opens to what
    [HashDir] reads in this way under the entry's name, the two digests
    are equal.  The compression method, the modification time and the
    attributes of the entries play no part: two archives whose entries
    agree on names and contents get the same [HashZip]. *)
Theorem HashDir_eq_HashZip :
  (forall (fs : FileSystem) (dir prefix zipfile : string) (ignore files : list string)
          (z : list zip_File),
     DirFiles fs dir prefix ignore = Ok files ->
     zip_OpenReader fs zipfile = Ok z ->
     files ≡ₚ map Name z ->
     (forall f, f ∈ z ->
        os_Open fs (filepath_Join dir (strings_TrimPrefix (Name f) prefix)) = Open f) ->
     HashDir fs dir prefix Hash1 ignore = HashZip fs zipfile Hash1) /\
  (forall (fs1 fs2 : FileSystem) (zipfile : string) (z1 z2 : list zip_File),
     zip_OpenReader fs1 zipfile = Ok z1 ->
     zip_OpenReader fs2 zipfile = Ok z2 ->
     map (fun f => (Name f, Open f)) z1 = map (fun f => (Name f, Open f)) z2 ->
     HashZip fs1 zipfile Hash1 = HashZip fs2 zipfile Hash1).
Proof.
  split.
  - intros fs dir prefix zipfile ignore files z Hfiles Hz Hnames Hcontents.
    rewrite (HashDir_unfold _ _ _ _ _ _ Hfiles), (HashZip_unfold _ _ _ Hz).
    rewrite (Hash1_Permutation _ _ _ Hnames).
    apply Hash1_ext. intros n Hn.
    destruct (zip_index_lookup z n Hn) as (f & Hf & <- & ->).
    by apply Hcontents.
  - intros fs1 fs2 zipfile z1 z2 Hz1 Hz2 Hsame.
    rewrite (HashZip_unfold _ _ _ Hz1), (HashZip_unfold _ _ _ Hz2).
    assert (Hn : map Name z1 = map Name z2).
    { apply (f_equal (map fst)) in Hsame. by rewrite !map_map in Hsame. }
    rewrite Hn. apply Hash1_ext. intros n _.
    pose proof (zip_index_Open z1 z2 n Hsame) as Ho.
    destruct ((zip_index z1).2 !! n), ((zip_index z2).2 !! n); cbn in Ho; congruence.
Qed.

(** ** Facts about [DirFiles] *)

Lemma Walk_app {S : Type} (fn : S -> WalkEntry -> result S)
    (calls1 calls2 : list WalkEntry) (st : S) :
  Walk fn (calls1 ++ calls2) st = (let* st1 := Walk fn calls1 st in Walk fn calls2 st1).
Proof.
  revert st. induction calls1 as [|c calls1 IH]; intros st; [done|].
  cbn [app Walk]. destruct (fn st c); cbn [bind]; [apply IH|done..].
Qed.

(** The list of ignored directories only grows. *)
Lemma walkFn_ignoredDirectories (dir prefix : string) (ignore : list string)
    (st st' : walk_state) (c : WalkEntry) (d : string) :
  walkFn dir prefix ignore st c = Ok st' ->
  d ∈ ignoredDirectories st -> d ∈ ignoredDirectories st'.
Proof.
  unfold walkFn. intros H Hd.
  destruct (lstat_err c); [done|].
  destruct (existsb _ ignore).
  { destruct (IsDir c); injection H as <-; [|done]. cbn. apply elem_of_app. by left. }
  destruct (IsDir c); [by injection H as <-|].
  destruct (String.eqb (path c) dir); [done|].
  destruct (existsb _ (ignoredDirectories st)); [by injection H as <-|].
  destruct (logical_name dir prefix (path c)); cbn [bind] in H; [|done..].
  by injection H as <-.
Qed.

Lemma Walk_ignoredDirectories (dir prefix : string) (ignore : list string)
    (calls : list WalkEntry) (st st' : walk_state) (d : string) :
  Walk (walkFn dir prefix ignore) calls st = Ok st' ->
  d ∈ ignoredDirectories st -> d ∈ ignoredDirectories st'.
Proof.
  revert st. induction calls as [|c calls IH]; intros st H Hd.
  { by injection H as <-. }
  cbn [Walk] in H.
  destruct (walkFn dir prefix ignore st c) as [st1| |] eqn:E; cbn [bind] in H; [|done..].
  eapply IH; [done|]. by eapply walkFn_ignoredDirectories.
Qed.

(** A directory that matches an ignore pattern is recorded. *)
Lemma walkFn_records_ignored (dir prefix : string) (ignore : list string)
    (st st' : walk_state) (c : WalkEntry) :
  walkFn dir prefix ignore st c = Ok st' ->
  IsDir c = true ->
  existsb (fun i => glob_Glob i (path c)) ignore = true ->
  path c ∈ ignoredDirectories st'.
Proof.
  unfold walkFn. intros H Hdir Hglob. rewrite Hdir, Hglob in H.
  destruct (lstat_err c); [done|]. injection H as <-. cbn.
  apply elem_of_app. right. by left.
Qed.

(** A file whose path starts with a recorded directory adds nothing. *)
Lemma walkFn_skips_beneath_ignored (dir prefix : string) (ignore : list string)
    (st st' : walk_state) (c : WalkEntry) (d : string) :
  walkFn dir prefix ignore st c = Ok st' ->
  IsDir c = false ->
  d ∈ ignoredDirectories st ->
  strings_HasPrefix (path c) d = true ->
  st' = st.
Proof.
  unfold walkFn. intros H Hfile Hd Hpre. rewrite Hfile in H.
  destruct (lstat_err c); [done|].
  destruct (existsb _ ignore); [by injection H|].
  destruct (String.eqb (path c) dir); [done|].
  destruct (existsb _ (ignoredDirectories st)) eqn:E; [by injection H|].
  exfalso. apply not_true_iff_false in E. apply E.
  apply existsb_exists. exists d. split; [|done]. by apply list_elem_of_In.
Qed.

(** Wherever the paths beneath a directory start with the path of the
    directory, a file beneath an ignored directory leaves no trace:
    the walk ends as it does without it. *)
Lemma Walk_ignored_directory_transitive (dir prefix : string) (ignore : list string)
    (calls1 calls2 calls3 : list WalkEntry) (d f : WalkEntry) (st st' : walk_state) :
  Walk (walkFn dir prefix ignore) (calls1 ++ d :: calls2 ++ f :: calls3) st = Ok st' ->
  IsDir d = true ->
  existsb (fun i => glob_Glob i (path d)) ignore = true ->
  IsDir f = false ->
  strings_HasPrefix (path f) (path d) = true ->
  Walk (walkFn dir prefix ignore) (calls1 ++ d :: calls2 ++ calls3) st = Ok st'.
Proof.
  intros H Hdir Hglob Hfile Hpre.
  rewrite Walk_app in H. rewrite Walk_app.
  destruct (Walk _ calls1 st) as [st1| |]; cbn [bind] in *; [|done..].
  cbn [Walk] in *.
  destruct (walkFn dir prefix ignore st1 d) as [st2| |] eqn:E2; cbn [bind] in *; [|done..].
  rewrite Walk_app in H. rewrite Walk_app.
  destruct (Walk _ calls2 st2) as [st3| |] eqn:E3; cbn [bind] in *; [|done..].
  cbn [Walk] in H.
  destruct (walkFn dir prefix ignore st3 f) as [st4| |] eqn:E4; cbn [bind] in *; [|done..].
  assert (st4 = st3) as ->; [|done].
  eapply walkFn_skips_beneath_ignored; [done..| |done].
  eapply Walk_ignoredDirectories; [done|].
  by eapply walkFn_records_ignored.
Qed.

(** ** More on [Hash1]: when it succeeds and what it hashes *)

(** A name [Hash1] can hash: no newline in it, and a file that opens and
    reads to the end. *)
Definition hashable (open : string -> result ReadCloser) (f : string) : Prop :=
  strings_Contains f newline = false /\ exists data, open f = Ok (Ok data).

Lemma Hash1_loop_Ok_iff (open : string -> result ReadCloser) (l : list string) (h : string) :
  (exists r, Hash1_loop open h l = Ok r) <-> Forall (hashable open) l.
Proof.
  revert h. induction l as [|f l IH]; intros h; cbn [Hash1_loop].
  { split; [by constructor|by eauto]. }
  rewrite Forall_cons. unfold hashable at 1.
  destruct (strings_Contains f newline).
  { split; [by intros [r H]|by intros [[H _] _]]. }
  destruct (open f) as [[data|e|m]|e|m]; cbn [bind].
  - rewrite IH. split; [by eauto|by intros [_ H]].
  - split; [by intros [r H]|by intros [[_ [d H]] _]].
  - split; [by intros [r H]|by intros [[_ [d H]] _]].
  - split; [by intros [r H]|by intros [[_ [d H]] _]].
  - split; [by intros [r H]|by intros [[_ [d H]] _]].
Qed.

(** [Hash1] returns a digest exactly when every name of the list is free
    of newlines and its file opens and reads without error: one name
    with a newline, or one file that fails, and there is no digest. *)
Theorem Hash1_succeeds_iff (files : list string) (open : string -> result ReadCloser) :
  (exists digest, Hash1 files open = Ok digest) <->
  (forall f, f ∈ files -> hashable open f).
Proof.
  unfold Hash1. rewrite <- Forall_forall.
  assert (Forall (hashable open) (sort_Strings files) <-> Forall (hashable open) files)
    as <- by (by rewrite sort_Strings_Permutation).
  rewrite <- (Hash1_loop_Ok_iff open (sort_Strings files) "").
  destruct (Hash1_loop open "" (sort_Strings files)); cbn [bind];
    split; intros [r H]; try done; eauto.
Qed.

Lemma string_app_assoc (a b c : string) : (a +:+ b) +:+ c = a +:+ (b +:+ c).
Proof.
  induction a as [|x a IH]; [reflexivity|].
  change (String x ((a +:+ b) +:+ c) = String x (a +:+ (b +:+ c))). by rewrite IH.
Qed.

Lemma string_app_nil_r (a : string) : a +:+ "" = a.
Proof.
  induction a as [|x a IH]; [reflexivity|].
  change (String x (a +:+ "") = String x a). by rewrite IH.
Qed.

(** The summary of the names [l], in their order, when [content] gives
    the bytes of each file. *)
Definition summary (content : string -> string) (l : list string) : string :=
  foldr (fun f rest => summary_line (content f) f +:+ rest) "" l.

Lemma Hash1_loop_summary (open : string -> result ReadCloser) (content : string -> string)
    (l : list string) (h : string) :
  Forall (fun f => strings_Contains f newline = false /\ open f = Ok (Ok (content f))) l ->
  Hash1_loop open h l = Ok (h +:+ summary content l).
Proof.
  revert h. induction l as [|f l IH]; intros h Hall; cbn [Hash1_loop summary foldr].
  { by rewrite string_app_nil_r. }
  apply Forall_cons in Hall as [[Hnl Hopen] Hall].
  rewrite Hnl, Hopen. cbn [bind]. rewrite (IH _ Hall). by rewrite string_app_assoc.
Qed.

(** When every file can be hashed, the digest is ["h1:"] followed by the
    encoded hash of one line per file, [<hex of the file's hash>], two
    spaces, the name and a newline, the lines being in ascending order
    of the names whatever the order of the list. *)
Theorem Hash1_digest (files : list string) (open : string -> result ReadCloser)
    (content : string -> string) :
  (forall f, f ∈ files ->
     strings_Contains f newline = false /\ open f = Ok (Ok (content f))) ->
  exists sorted,
    Sorted String.le sorted /\ sorted ≡ₚ files /\
    Hash1 files open =
    Ok ("h1:" +:+ base64_EncodeToString (sha256_Sum (summary content sorted))).
Proof.
  intros Hall. exists (sort_Strings files).
  split; [apply sort_Strings_Sorted|]. split; [apply sort_Strings_Permutation|].
  unfold Hash1. rewrite (Hash1_loop_summary open content); [done|].
  apply Forall_forall. intros f Hf. apply Hall. by apply sort_Strings_elem_of.
Qed.

(** ** More on [DirFiles]: what is listed and when it fails *)

Lemma walkFn_Ok_accessible (dir prefix : string) (ignore : list string)
    (st st' : walk_state) (c : WalkEntry) :
  walkFn dir prefix ignore st c = Ok st' -> lstat_err c = None.
Proof. unfold walkFn. by destruct (lstat_err c). Qed.

Lemma Walk_Ok_accessible (dir prefix : string) (ignore : list string)
    (calls : list WalkEntry) (st st' : walk_state) :
  Walk (walkFn dir prefix ignore) calls st = Ok st' ->
  Forall (fun c => lstat_err c = None) calls.
Proof.
  revert st. induction calls as [|c calls IH]; intros st H; [by constructor|].
  cbn [Walk] in H.
  destruct (walkFn dir prefix ignore st c) as [st1| |] eqn:E; cbn [bind] in H; [|done..].
  constructor; [by eapply walkFn_Ok_accessible|by eapply IH].
Qed.

(** [DirFiles] gives a list only if every entry the walk meets could be
    examined, those beneath ignored directories included: one entry
    that cannot be examined and there is an error in place of a list. *)
Theorem DirFiles_Ok_all_accessible (fs : FileSystem) (dir prefix : string)
    (ignore files : list string) :
  DirFiles fs dir prefix ignore = Ok files ->
  Forall (fun c => lstat_err c = None)
    (walk_entries (filepath_Clean dir) (fs_at fs (filepath_Clean dir))).
Proof.
  unfold DirFiles. intros H.
  destruct (Walk _ _ _) as [st| |] eqn:E; cbn [bind] in H; [|done..].
  by apply Walk_Ok_accessible in E.
Qed.

(** What one call adds to the list. *)
Lemma walkFn_files (dir prefix : string) (ignore : list string)
    (st st' : walk_state) (c : WalkEntry) :
  walkFn dir prefix ignore st c = Ok st' ->
  files st' = files st \/
  (exists x, files st' = files st ++ [x] /\
     ignoredDirectories st' = ignoredDirectories st /\
     IsDir c = false /\
     existsb (fun i => glob_Glob i (path c)) ignore = false /\
     existsb (fun i => strings_HasPrefix (path c) i) (ignoredDirectories st) = false /\
     logical_name dir prefix (path c) = Ok x).
Proof.
  unfold walkFn. intros H.
  destruct (lstat_err c); [done|].
  destruct (existsb _ ignore) eqn:Hglob.
  { destruct (IsDir c); injection H as <-; by left. }
  destruct (IsDir c) eqn:Hdir; [injection H as <-; by left|].
  destruct (String.eqb (path c) dir); [done|].
  destruct (existsb _ (ignoredDirectories st)) eqn:Hign; [injection H as <-; by left|].
  destruct (logical_name dir prefix (path c)) as [x| |]; cbn [bind] in H; [|done..].
  injection H as <-. right. exists x. done.
Qed.

(** Where every name of the list comes from. *)
Lemma Walk_files_provenance (dir prefix : string) (ignore : list string)
    (calls : list WalkEntry) (st st' : walk_state) (x : string) :
  Walk (walkFn dir prefix ignore) calls st = Ok st' ->
  x ∈ files st' ->
  x ∈ files st \/
  exists pre c post,
    calls = pre ++ c :: post /\
    IsDir c = false /\
    existsb (fun i => glob_Glob i (path c)) ignore = false /\
    logical_name dir prefix (path c) = Ok x /\
    (forall d, d ∈ ignoredDirectories st -> strings_HasPrefix (path c) d = false) /\
    (forall d, d ∈ pre -> IsDir d = true ->
       existsb (fun i => glob_Glob i (path d)) ignore = true ->
       strings_HasPrefix (path c) (path d) = false).
Proof.
  revert st. induction calls as [|c calls IH]; intros st H Hx.
  { injection H as <-. by left. }
  cbn [Walk] in H.
  destruct (walkFn dir prefix ignore st c) as [st1| |] eqn:E; cbn [bind] in H; [|done..].
  destruct (IH st1 H Hx) as [Hin|(pre & c' & post & -> & Hfile & Hglob & Hname & Hign & Hpre)].
  - destruct (walkFn_files _ _ _ _ _ _ E) as [Hy|(y & Hy & Hsame & Hfile & Hglob & Hign & Hname)];
      [rewrite Hy in Hin; by left|].
    rewrite Hy in Hin. apply elem_of_app in Hin as [Hin|Hin]; [by left|].
    apply list_elem_of_singleton in Hin as ->.
    right. exists [], c, calls. repeat split; try done.
    + intros d Hd. destruct (strings_HasPrefix (path c) d) eqn:Hp; [|done].
      apply not_true_iff_false in Hign. destruct Hign.
      apply existsb_exists. exists d. split; [by apply list_elem_of_In|done].
    + intros d Hd. by apply elem_of_nil in Hd.
  - right. exists (c :: pre), c', post. repeat split; try done.
    + intros d Hd. apply Hign. by eapply walkFn_ignoredDirectories.
    + intros d Hd Hdir Hmatch. apply elem_of_cons in Hd as [->|Hd]; [|by apply Hpre].
      apply Hign. by eapply walkFn_records_ignored.
Qed.

(** Every name [DirFiles] lists is the name of an entry of the walk that
    is not a directory, matches none of the ignore patterns, and does
    not start with the path of a directory that was met earlier and
    matches one. *)
Theorem DirFiles_lists_unignored_files (fs : FileSystem) (dir prefix : string)
    (ignore files : list string) (x : string) :
  DirFiles fs dir prefix ignore = Ok files ->
  x ∈ files ->
  exists pre c post,
    walk_entries (filepath_Clean dir) (fs_at fs (filepath_Clean dir)) = pre ++ c :: post /\
    IsDir c = false /\
    (forall i, i ∈ ignore -> glob_Glob i (path c) = false) /\
    logical_name (filepath_Clean dir) prefix (path c) = Ok x /\
    (forall d i, d ∈ pre -> IsDir d = true -> i ∈ ignore -> glob_Glob i (path d) = true ->
       strings_HasPrefix (path c) (path d) = false).
Proof.
  unfold DirFiles. intros H Hx.
  destruct (Walk _ _ _) as [st| |] eqn:E; cbn [bind] in H; [|done..].
  injection H as <-.
  destruct (Walk_files_provenance _ _ _ _ _ _ x E Hx)
    as [Hin|(pre & c & post & Hwalk & Hfile & Hglob & Hname & _ & Hpre)].
  { by apply elem_of_nil in Hin. }
  exists pre, c, post. repeat split; try done.
  - intros i Hi. destruct (glob_Glob i (path c)) eqn:Hg; [|done].
    apply not_true_iff_false in Hglob. destruct Hglob.
    apply existsb_exists. exists i. split; [by apply list_elem_of_In|done].
  - intros d i Hd Hdir Hi Hg. apply Hpre; [done..|].
    apply existsb_exists. exists i. split; [by apply list_elem_of_In|done].
Qed.

(** Without ignore patterns nothing is left out. *)
Lemma Walk_no_ignore (dir prefix : string) (calls : list WalkEntry) (st st' : walk_state) :
  ignoredDirectories st = [] ->
  Walk (walkFn dir prefix []) calls st = Ok st' ->
  exists added,
    files st' = files st ++ added /\
    Forall2 (fun c x => logical_name dir prefix (path c) = Ok x)
      (List.filter (fun c => negb (IsDir c)) calls) added.
Proof.
  revert st. induction calls as [|c calls IH]; intros st Hnone H.
  { injection H as <-. exists []. by rewrite app_nil_r. }
  cbn [Walk] in H.
  destruct (walkFn dir prefix [] st c) as [st1| |] eqn:E; cbn [bind] in H; [|done..].
  unfold walkFn in E. rewrite Hnone in E. cbn [existsb] in E.
  destruct (lstat_err c); [done|]. cbn [List.filter].
  destruct (IsDir c); cbn [negb].
  { injection E as <-. by apply IH. }
  destruct (String.eqb (path c) dir); [done|].
  destruct (logical_name dir prefix (path c)) as [x| |] eqn:Hname; cbn [bind] in E; [|done..].
  injection E as <-.
  destruct (IH {| ignoredDirectories := []; files := files st ++ [x] |} eq_refl H)
    as (added & Hfiles & Hall). cbn in Hfiles.
  exists (x :: added). split; [by rewrite Hfiles, <- app_assoc|by constructor].
Qed.

(** With no ignore pattern, [DirFiles] lists every entry of the walk
    that is not a directory, each once, under its logical name and in
    the order of the walk. *)
Theorem DirFiles_no_ignore_lists_every_file (fs : FileSystem) (dir prefix : string)
    (files : list string) :
  DirFiles fs dir prefix [] = Ok files ->
  Forall2 (fun c x => logical_name (filepath_Clean dir) prefix (path c) = Ok x)
    (List.filter (fun c => negb (IsDir c))
       (walk_entries (filepath_Clean dir) (fs_at fs (filepath_Clean dir))))
    files.
Proof.
  unfold DirFiles. intros H.
  destruct (Walk _ _ _) as [st| |] eqn:E; cbn [bind] in H; [|done..].
  injection H as <-.
  destruct (Walk_no_ignore _ _ _ {| ignoredDirectories := []; files := [] |} _ eq_refl E)
    as (added & Hfiles & Hall).
  by rewrite Hfiles.
Qed.

(** When [dir] names a regular file, [DirFiles] fails with "is not a
    directory", unless the path matches an ignore pattern: then the
    file is skipped before the test and the list is empty. *)
Theorem DirFiles_root_not_a_directory (fs : FileSystem) (dir prefix name : string)
    (ignore : list string) :
  fs_at fs (filepath_Clean dir) = File name ->
  DirFiles fs dir prefix ignore =
  if existsb (fun i => glob_Glob i (filepath_Clean dir)) ignore
  then Ok []
  else Err (ErrorOf (filepath_Clean dir +:+ " is not a directory")).
Proof.
  intros Hroot. unfold DirFiles. rewrite Hroot. cbn [walk_entries Walk].
  unfold walkFn. cbn [lstat_err path IsDir].
  destruct (existsb _ ignore); [done|]. by rewrite String.eqb_refl.
Qed.

(** A file whose path starts with the path of a directory that was met
    earlier and matches an ignore pattern could as well not be there:
    the tree without it gets the same list. *)
Theorem DirFiles_without_ignored_file (fs fs' : FileSystem) (dir prefix : string)
    (ignore files : list string) (calls1 calls2 calls3 : list WalkEntry) (d f : WalkEntry) :
  walk_entries (filepath_Clean dir) (fs_at fs (filepath_Clean dir))
    = calls1 ++ d :: calls2 ++ f :: calls3 ->
  walk_entries (filepath_Clean dir) (fs_at fs' (filepath_Clean dir))
    = calls1 ++ d :: calls2 ++ calls3 ->
  IsDir d = true ->
  existsb (fun i => glob_Glob i (path d)) ignore = true ->
  IsDir f = false ->
  strings_HasPrefix (path f) (path d) = true ->
  DirFiles fs dir prefix ignore = Ok files ->
  DirFiles fs' dir prefix ignore = Ok files.
Proof.
  intros Hwalk Hwalk' Hdir Hglob Hfile Hpre H. unfold DirFiles in *.
  rewrite Hwalk in H. rewrite Hwalk'.
  destruct (Walk _ (calls1 ++ d :: calls2 ++ f :: calls3) _) as [st| |] eqn:E;
    cbn [bind] in H; [|done..].
  by rewrite (Walk_ignored_directory_transitive _ _ _ _ _ _ _ _ _ _ E Hdir Hglob Hfile Hpre).
Qed.

(** ** More on [HashZip]: entries of one name, and their order *)

(** The entries of the archive that carry a name, in the archive's order. *)
Definition named (n : string) (z : list zip_File) : list zip_File :=
  filter (fun f => Name f = n) z.

(** The map of [HashZip] holds, under a name, the last entry of that name. *)
Lemma zip_index_last (z : list zip_File) (n : string) :
  (zip_index z).2 !! n = last (named n z).
Proof.
  unfold zip_index, named. induction z as [|f z IH] using rev_ind; [done|].
  rewrite foldl_app, filter_app. cbn [foldl].
  destruct (foldl _ _ z) as [fl zf]. cbn [snd] in *.
  destruct (decide (Name f = n)) as [<-|Hn].
  - rewrite lookup_insert_eq, filter_cons_True, filter_nil by done. by rewrite last_snoc.
  - rewrite lookup_insert_ne, filter_cons_False, filter_nil by done. by rewrite app_nil_r.
Qed.

(** When an archive holds several entries of one name, [HashZip] lists
    the name once for each of them and hashes every one of them with
    the content of the last: the digest is that of the names of the
    archive, each opened at the last entry that carries it. *)
Theorem HashZip_last_entry_wins (fs : FileSystem) (zipfile : string) (z : list zip_File) :
  zip_OpenReader fs zipfile = Ok z ->
  HashZip fs zipfile Hash1 =
  Hash1 (map Name z)
    (fun name => match last (named name z) with
                 | Some f => Open f
                 | None => Err (ErrorOf ("file " +:+ name +:+ " not found in zip"))
                 end).
Proof.
  intros Hz. rewrite (HashZip_unfold _ _ _ Hz).
  apply Hash1_ext. intros n _. by rewrite zip_index_last.
Qed.

Lemma named_at_most_one (n : string) (z : list zip_File) :
  NoDup (map Name z) -> length (named n z) <= 1.
Proof.
  unfold named. induction z as [|f z IH]; [cbn; lia|].
  cbn [map]. intros Hnd. apply NoDup_cons in Hnd as [Hnotin Hnd].
  destruct (decide (Name f = n)) as [Hn|Hn].
  - rewrite filter_cons_True by done. cbn.
    destruct (filter (fun f0 => Name f0 = n) z) as [|g rest] eqn:E; [cbn; lia|].
    exfalso. apply Hnotin.
    assert (g ∈ filter (fun f0 => Name f0 = n) z) as Hg by (rewrite E; by left).
    apply list_elem_of_filter in Hg as [Hname Hg].
    apply list_elem_of_In, in_map_iff. exists g.
    split; [congruence|by apply list_elem_of_In].
  - rewrite filter_cons_False by done. by apply IH.
Qed.

(** With names that are all different, the order of the entries in the
    archive does not matter to [HashZip]. *)
Theorem HashZip_entry_order (fs1 fs2 : FileSystem) (zipfile : string)
    (z1 z2 : list zip_File) :
  zip_OpenReader fs1 zipfile = Ok z1 ->
  zip_OpenReader fs2 zipfile = Ok z2 ->
  z1 ≡ₚ z2 ->
  NoDup (map Name z1) ->
  HashZip fs1 zipfile Hash1 = HashZip fs2 zipfile Hash1.
Proof.
  intros Hz1 Hz2 Hperm Hnd.
  rewrite (HashZip_unfold _ _ _ Hz1), (HashZip_unfold _ _ _ Hz2).
  rewrite (Hash1_Permutation (map Name z1) (map Name z2)) by (by apply Permutation_map).
  apply Hash1_ext. intros n _. rewrite !zip_index_last.
  assert (named n z1 = named n z2) as ->; [|done].
  pose proof (named_at_most_one n z1 Hnd) as Hlen.
  assert (named n z1 ≡ₚ named n z2) as Hp by (unfold named; by rewrite Hperm).
  destruct (named n z1) as [|f [|g rest]]; cbn in Hlen; [| |lia].
  - by apply Permutation_nil_l in Hp.
  - by apply Permutation_singleton_l in Hp.
Qed.

End Hash.

(** ** Instances on a Unix host *)

(** The theorems above hold for any digest and encoding functions; the
    instances below leave the bytes as they are, which keeps the hashed
    summary readable. *)
Definition plain (s : string) : string := s.

(** The elements of a path, split at every ["/"]. *)
Fixpoint path_elements (p : string) : list string :=
  match p with
  | EmptyString => [EmptyString]
  | String c p' =>
      if Ascii.eqb c "/"%char then EmptyString :: path_elements p'
      else match path_elements p' with
           | x :: xs => String c x :: xs
           | [] => [String c EmptyString]
           end
  end.

(** [filepath.Clean] on a Unix host, for paths without [".."] elements:
    empty and ["."] elements go, a rooted path stays rooted, and the
    empty relative path is ["."]. *)
Definition unix_Clean (p : string) : string :=
  let elements :=
    List.filter (fun e => negb (String.eqb e "" || String.eqb e ".")) (path_elements p) in
  let body := String.concat "/" elements in
  if strings_HasPrefix p "/" then "/" +:+ body
  else if String.eqb body "" then "." else body.

(** [filepath.Join] of two elements on a Unix host: empty elements are
    left out and the rest is cleaned. *)
Definition unix_Join (a b : string) : string :=
  if String.eqb a "" then (if String.eqb b "" then "" else unix_Clean b)
  else if String.eqb b "" then unix_Clean a
  else unix_Clean (a +:+ "/" +:+ b).

(** [filepath.ToSlash] on a Unix host changes nothing. *)
Definition unix_ToSlash (p : string) : string := p.

(** [glob.Glob] for a pattern without ["*"]: the subject has to be the
    pattern. *)
Definition glob_literal (pattern subj : string) : bool := String.eqb subj pattern.

Abbreviation unix_DirFiles := (DirFiles unix_Clean unix_Join unix_ToSlash glob_literal).
Abbreviation unix_HashDir := (HashDir unix_Clean unix_Join unix_ToSlash glob_literal).
Abbreviation plain_Hash1 := (Hash1 plain plain plain).

Definition no_such_file : error := ErrorOf "no such file or directory".

(** Two files in a directory found at [at_path], enumerated in the given
    order; an archive [/m.zip] with the same two files. *)
Definition two_files (at_path : string) (entries : list node) (z : list zip_File)
    : FileSystem := {|
  fs_at p := if String.eqb p at_path then Dir at_path entries else Inaccessible p no_such_file;
  os_Open p :=
    if String.eqb p (unix_Join at_path "a.txt") then Ok (Ok "alpha")
    else if String.eqb p (unix_Join at_path "b.txt") then Ok (Ok "beta")
    else Err no_such_file;
  zip_OpenReader p := if String.eqb p "/m.zip" then Ok z else Err no_such_file
|}.

Definition stored : list zip_File :=
  [ {| Name := "p/b.txt"; Method := 0; Modified := 1700000000; ExternalAttrs := 0;
       Open := Ok (Ok "beta") |};
    {| Name := "p/a.txt"; Method := 0; Modified := 1700000000; ExternalAttrs := 0;
       Open := Ok (Ok "alpha") |} ].

Definition deflated : list zip_File :=
  [ {| Name := "p/b.txt"; Method := 8; Modified := 1; ExternalAttrs := 420;
       Open := Ok (Ok "beta") |};
    {| Name := "p/a.txt"; Method := 8; Modified := 2; ExternalAttrs := 420;
       Open := Ok (Ok "alpha") |} ].

Example unix_Join_examples :
  unix_Join "." "a.txt" = "a.txt" /\ unix_Join "/d" "a.txt" = "/d/a.txt" /\
  unix_Join "/d" "/a.txt" = "/d/a.txt" /\ unix_Join "p" "a.txt" = "p/a.txt" /\
  unix_Clean "." = "." /\ unix_Clean "/d" = "/d".
Proof. repeat split. Qed.

Example Hash1_example :
  plain_Hash1 ["b.txt"; "a.txt"] (os_Open (two_files "" [] [])) =
  Ok ("h1:alpha  a.txt" +:+ newline +:+ "beta  b.txt" +:+ newline).
Proof. vm_compute. reflexivity. Qed.

Example Hash1_newline_rejected :
  plain_Hash1 ["a" +:+ newline +:+ "b"] (fun _ => Ok (Ok "")) =
  Err (ErrorOf "dirhash: filenames with newlines are not supported").
Proof. vm_compute. reflexivity. Qed.

Lemma Hash1_order_independent_witness :
  plain_Hash1 ["b.txt"; "a.txt"] (os_Open (two_files "" [] [])) =
  plain_Hash1 ["a.txt"; "b.txt"] (os_Open (two_files "" [] [])) /\
  unix_HashDir (two_files "/d" [File "b.txt"; File "a.txt"] []) "/d" "p" plain_Hash1 [] =
  unix_HashDir (two_files "/d" [File "a.txt"; File "b.txt"] []) "/d" "p" plain_Hash1 [].
Proof.
  split.
  - apply (proj1 (Hash1_order_independent plain plain plain
                    unix_Clean unix_Join unix_ToSlash glob_literal)).
    apply perm_swap.
  - apply (proj2 (Hash1_order_independent plain plain plain
                    unix_Clean unix_Join unix_ToSlash glob_literal))
      with (l1 := ["p/b.txt"; "p/a.txt"]) (l2 := ["p/a.txt"; "p/b.txt"]).
    + reflexivity.
    + vm_compute. reflexivity.
    + vm_compute. reflexivity.
    + apply perm_swap.
Defined.

Lemma HashDir_eq_HashZip_witness :
  unix_HashDir (two_files "/d" [File "a.txt"; File "b.txt"] stored) "/d" "p" plain_Hash1 [] =
  HashZip (two_files "/d" [File "a.txt"; File "b.txt"] stored) "/m.zip" plain_Hash1 /\
  HashZip (two_files "/d" [] stored) "/m.zip" plain_Hash1 =
  HashZip (two_files "/d" [] deflated) "/m.zip" plain_Hash1.
Proof.
  split.
  - apply (proj1 (HashDir_eq_HashZip plain plain plain
                    unix_Clean unix_Join unix_ToSlash glob_literal))
      with (files := ["p/a.txt"; "p/b.txt"]) (z := stored).
    + vm_compute. reflexivity.
    + reflexivity.
    + apply perm_swap.
    + intros f Hf. unfold stored in Hf.
      apply elem_of_cons in Hf as [->|Hf]; [vm_compute; reflexivity|].
      apply elem_of_cons in Hf as [->|Hf]; [vm_compute; reflexivity|].
      by apply elem_of_nil in Hf.
  - apply (proj2 (HashDir_eq_HashZip plain plain plain
                    unix_Clean unix_Join unix_ToSlash glob_literal))
      with (z1 := stored) (z2 := deflated); reflexivity.
Defined.

(** An archive with the files [.env] and [env]. *)
Definition dot_env_zip : list zip_File :=
  [ {| Name := ".env"; Method := 8; Modified := 1700000000; ExternalAttrs := 420;
       Open := Ok (Ok "secret") |};
    {| Name := "env"; Method := 8; Modified := 1700000000; ExternalAttrs := 420;
       Open := Ok (Ok "public") |} ].

(** A directory [/d] with the files [.env] and [env], and the archive
    [/m.zip] with the same two files. *)
Definition dot_env : FileSystem := {|
  fs_at p :=
    if String.eqb p "/d" then Dir "/d" [File ".env"; File "env"]
    else Inaccessible p no_such_file;
  os_Open p :=
    if String.eqb p "/d/.env" then Ok (Ok "secret")
    else if String.eqb p "/d/env" then Ok (Ok "public")
    else Err no_such_file;
  zip_OpenReader p := if String.eqb p "/m.zip" then Ok dot_env_zip else Err no_such_file
|}.

(** C7, at a prefix that does not come off the names again.  [DirFiles]
    builds a name with [filepath.Join(prefix, rel)], which cleans what it
    joins, and [HashDir] looks for the file of a name at [dir] joined
    with [strings.TrimPrefix(name, prefix)].  Under the prefix ["./p"]
    the names start with ["p/"], nothing is trimmed, and [HashDir] looks
    for [/d/p/a.txt]: it fails on a tree that [HashZip] hashes from an
    archive with the same names and the same bytes.  Under the prefix
    ["."] the name of the file [.env] is [".env"] and loses its dot:
    [HashDir] takes the bytes of [env] for both names and returns a
    digest that is not the one of the archive. *)
Theorem HashDir_prefix_does_not_come_off :
  let tree := two_files "/d" [File "a.txt"; File "b.txt"] stored in
  (unix_DirFiles tree "/d" "./p" [] = Ok ["p/a.txt"; "p/b.txt"] /\
   map (fun f => (Name f, Open f)) stored =
     [("p/b.txt", os_Open tree "/d/b.txt"); ("p/a.txt", os_Open tree "/d/a.txt")] /\
   unix_HashDir tree "/d" "./p" plain_Hash1 [] = Err no_such_file /\
   HashZip tree "/m.zip" plain_Hash1 =
     Ok ("h1:alpha  p/a.txt" +:+ newline +:+ "beta  p/b.txt" +:+ newline)) /\
  (unix_DirFiles dot_env "/d" "." [] = Ok [".env"; "env"] /\
   map (fun f => (Name f, Open f)) dot_env_zip =
     [(".env", os_Open dot_env "/d/.env"); ("env", os_Open dot_env "/d/env")] /\
   unix_HashDir dot_env "/d" "." plain_Hash1 [] =
     Ok ("h1:public  .env" +:+ newline +:+ "public  env" +:+ newline) /\
   HashZip dot_env "/m.zip" plain_Hash1 =
     Ok ("h1:secret  .env" +:+ newline +:+ "public  env" +:+ newline) /\
   unix_HashDir dot_env "/d" "." plain_Hash1 [] <> HashZip dot_env "/m.zip" plain_Hash1).
Proof.
  intros tree. split.
  - repeat split; vm_compute; reflexivity.
  - repeat split; try (vm_compute; reflexivity).
    vm_compute. discriminate.
Qed.

Lemma Hash1_leaves_input_unchanged_witness :
  let m : Slices.heap := {[ 0 := ["b.txt"; "a.txt"] ]} in
  let s := Slices.Slice 0 0 2 in
  Slices.elems (Hash1_mem plain plain plain s (fun _ => Ok (Ok "")) m).2 s = ["b.txt"; "a.txt"].
Proof.
  intros m s.
  apply (proj1 (Hash1_leaves_input_unchanged plain plain plain s (fun _ => Ok (Ok "")) m)).
Defined.

(** C6, the root ["."].  Walking ["."] reports the entries of the root
    without a leading ["./"] (which is why [DirFiles] leaves [file] as it
    is when [dir] is ["."]), so none of them starts with the path of the
    root: if the root matches an ignore pattern, it is recorded as an
    ignored directory and the files beneath it are listed all the same.
    Under any other root the same pattern empties the list. *)
Theorem DirFiles_ignored_dot_root :
  let dot := two_files "." [File "a.txt"; Dir "sub" [File "b.txt"]] [] in
  let abs := two_files "/d" [File "a.txt"; Dir "sub" [File "b.txt"]] [] in
  existsb (fun i => glob_literal i ".") ["."] = true /\
  existsb (fun i => glob_literal i "a.txt") ["."] = false /\
  unix_DirFiles dot "." "p" ["."] = Ok ["p/a.txt"; "p/sub/b.txt"] /\
  unix_DirFiles abs "/d" "p" ["/d"] = Ok [].
Proof. repeat split; vm_compute; reflexivity. Qed.

(** ** Further instances *)

Definition content_of (f : string) : string :=
  if String.eqb f "a.txt" then "alpha" else "beta".

Lemma Hash1_digest_witness :
  exists sorted,
    Sorted String.le sorted /\ sorted ≡ₚ ["b.txt"; "a.txt"] /\
    plain_Hash1 ["b.txt"; "a.txt"] (os_Open (two_files "" [] [])) =
    Ok ("h1:" +:+ plain (plain (summary plain plain content_of sorted))).
Proof.
  apply (Hash1_digest plain plain plain ["b.txt"; "a.txt"]
           (os_Open (two_files "" [] [])) content_of).
  intros f Hf.
  apply elem_of_cons in Hf as [->|Hf]; [by vm_compute|].
  apply elem_of_cons in Hf as [->|Hf]; [by vm_compute|].
  by apply elem_of_nil in Hf.
Defined.

(** A tree with a file beneath a directory and a file beside it. *)
Definition nested (entries_of_sub : list node) : FileSystem :=
  two_files "/d" [Dir "sub" entries_of_sub; File "a.txt"] [].

Example nested_walk :
  map path (walk_entries unix_Join "/d" (fs_at (nested [File "b.txt"]) "/d")) =
  ["/d"; "/d/sub"; "/d/sub/b.txt"; "/d/a.txt"].
Proof. vm_compute. reflexivity. Qed.

Lemma DirFiles_Ok_all_accessible_witness :
  Forall (fun c => lstat_err c = None)
    (walk_entries unix_Join (unix_Clean "/d")
       (fs_at (nested [File "b.txt"]) (unix_Clean "/d"))).
Proof.
  apply (DirFiles_Ok_all_accessible unix_Clean unix_Join unix_ToSlash glob_literal
           (nested [File "b.txt"]) "/d" "p" ["/d/sub"] ["p/a.txt"]).
  vm_compute. reflexivity.
Defined.

Lemma DirFiles_lists_unignored_files_witness :
  exists pre c post,
    walk_entries unix_Join (unix_Clean "/d")
      (fs_at (nested [File "b.txt"]) (unix_Clean "/d")) = pre ++ c :: post /\
    IsDir c = false /\
    (forall i, i ∈ ["/d/sub"] -> glob_literal i (path c) = false) /\
    logical_name unix_Join unix_ToSlash (unix_Clean "/d") "p" (path c) = Ok "p/a.txt" /\
    (forall d i, d ∈ pre -> IsDir d = true -> i ∈ ["/d/sub"] ->
       glob_literal i (path d) = true -> strings_HasPrefix (path c) (path d) = false).
Proof.
  apply (DirFiles_lists_unignored_files unix_Clean unix_Join unix_ToSlash glob_literal
           (nested [File "b.txt"]) "/d" "p" ["/d/sub"] ["p/a.txt"] "p/a.txt").
  - vm_compute. reflexivity.
  - by left.
Defined.

Lemma DirFiles_no_ignore_lists_every_file_witness :
  Forall2 (fun c x => logical_name unix_Join unix_ToSlash (unix_Clean "/d") "p" (path c) = Ok x)
    (List.filter (fun c => negb (IsDir c))
       (walk_entries unix_Join (unix_Clean "/d")
          (fs_at (nested [File "b.txt"]) (unix_Clean "/d"))))
    ["p/sub/b.txt"; "p/a.txt"].
Proof.
  apply (DirFiles_no_ignore_lists_every_file unix_Clean unix_Join unix_ToSlash glob_literal
           (nested [File "b.txt"]) "/d" "p").
  vm_compute. reflexivity.
Defined.

(** [dir] names a regular file. *)
Definition lone_file : FileSystem :=
  {| fs_at p := if String.eqb p "/d/a.txt" then File "a.txt" else Inaccessible p no_such_file;
     os_Open p := Err no_such_file;
     zip_OpenReader p := Err no_such_file |}.

Lemma DirFiles_root_not_a_directory_witness :
  unix_DirFiles lone_file "/d/a.txt" "p" [] = Err (ErrorOf "/d/a.txt is not a directory") /\
  unix_DirFiles lone_file "/d/a.txt" "p" ["/d/a.txt"] = Ok [].
Proof.
  split.
  - apply (DirFiles_root_not_a_directory unix_Clean unix_Join unix_ToSlash glob_literal
             lone_file "/d/a.txt" "p" "a.txt" []). reflexivity.
  - apply (DirFiles_root_not_a_directory unix_Clean unix_Join unix_ToSlash glob_literal
             lone_file "/d/a.txt" "p" "a.txt" ["/d/a.txt"]). reflexivity.
Defined.

Lemma DirFiles_without_ignored_file_witness :
  unix_DirFiles (nested []) "/d" "p" ["/d/sub"] = Ok ["p/a.txt"].
Proof.
  apply (DirFiles_without_ignored_file unix_Clean unix_Join unix_ToSlash glob_literal
           (nested [File "b.txt"]) (nested []) "/d" "p" ["/d/sub"] ["p/a.txt"]
           [{| path := "/d"; IsDir := true; lstat_err := None |}]
           []
           [{| path := "/d/a.txt"; IsDir := false; lstat_err := None |}]
           {| path := "/d/sub"; IsDir := true; lstat_err := None |}
           {| path := "/d/sub/b.txt"; IsDir := false; lstat_err := None |});
    vm_compute; reflexivity.
Defined.

(** An archive with two entries of one name. *)
Definition twice : list zip_File :=
  [ {| Name := "p/a.txt"; Method := 0; Modified := 1; ExternalAttrs := 0;
       Open := Ok (Ok "alpha") |};
    {| Name := "p/a.txt"; Method := 0; Modified := 2; ExternalAttrs := 0;
       Open := Ok (Ok "beta") |} ].

Lemma HashZip_last_entry_wins_witness :
  HashZip (two_files "/d" [] twice) "/m.zip" plain_Hash1 =
  Ok ("h1:beta  p/a.txt" +:+ newline +:+ "beta  p/a.txt" +:+ newline).
Proof.
  rewrite (HashZip_last_entry_wins plain plain plain (two_files "/d" [] twice) "/m.zip" twice);
    [|reflexivity].
  vm_compute. reflexivity.
Defined.

Lemma HashZip_entry_order_witness :
  HashZip (two_files "/d" [] stored) "/m.zip" plain_Hash1 =
  HashZip (two_files "/d" [] (reverse stored)) "/m.zip" plain_Hash1.
Proof.
  apply (HashZip_entry_order plain plain plain _ _ "/m.zip" stored (reverse stored)).
  - reflexivity.
  - reflexivity.
  - apply perm_swap.
  - apply NoDup_cons. split; [|apply NoDup_singleton].
    intros H. apply list_elem_of_singleton in H. discriminate.
Defined.

End Dirhash.

(** * Package clients: the command executor *)

(** [github.com/shipyard-run/gohup], as far as [Execute] uses it. *)
Module Gohup.

Record Options : Type := {
  Path : string;
  Args : list string;
  Logfile : string;
  Env : list string;
  Dir : string
}.

(** [Execute] tells [StatusStopped] from every other status. *)
Inductive Status : Type :=
  | StatusRunning
  | StatusStopped
  | StatusUnknown.

End Gohup.

Module Clients.

(** A [time.Duration] counts nanoseconds. *)
Definition Millisecond : Z := 1000000.
Definition Second : Z := 1000 * Millisecond.

(** [Env] is tested against nil, so the nil slice ([None]) is kept apart
    from an empty one. *)
Record CommandConfig : Type := {
  Command : string;
  Args : list string;
  Env : option (list string);
  WorkingDirectory : string;
  RunInBackground : bool;
  LogFilePath : string
}.

(** [CommandImpl]; its logger only writes debug lines and is left out. *)
Record CommandImpl : Type := {
  timeout : Z
}.

Definition NewCommand (maxCommandTime : Z) : CommandImpl := {| timeout := maxCommandTime |}.

Record done : Type := {
  done_pid : Z;
  done_err : option error
}.

(** What [Execute] meets outside the program.  Time is counted in
    nanoseconds from the moment [Execute] is entered. *)
Record Host : Type := {
  (** [os.Environ()] *)
  os_Environ : list string;
  (** what [lp.Start] returns: pid, pid file, error (an error of
      [gohup] is given by its message: it is never the sentinel) *)
  lp_Start : Gohup.Options -> Z * string * option string;
  (** the time at which [lp.Start] returns *)
  started_at : Gohup.Options -> N;
  (** what [lp.QueryStatus] returns for a pid file at a time *)
  lp_QueryStatus : string -> N -> Gohup.Status * option string;
  (** the case [select] takes when both channels are ready at once *)
  select_timer_on_tie : bool
}.

(** The calls made to [gohup]. *)
Inductive Call : Type :=
  | CallStart (o : Gohup.Options)
  | CallQueryStatus (pidfile : string) (now : N)
  | CallStop (pidfile : string).

(** What a call of [Execute] comes to: the values returned, the time of
    the return, and the calls made to [gohup] until then.  On the
    timer's case [Execute] calls [lp.Stop] before it returns; like a
    status query, [lp.Stop] is taken to answer at once, so the time of
    that return is the moment at which the timer expires.  The goroutine
    is not over when [Execute] returns: what it does from then on is in
    [afterwards] below. *)
Record Outcome : Type := {
  pid : Z;
  err : option error;
  returned_at : N;
  calls : list Call
}.

(** The options [Execute] hands to [lp.Start]. *)
Definition options (host : Host) (config : CommandConfig) : Gohup.Options :=
  let o := {| Gohup.Path := Command config;
              Gohup.Args := Args config;
              Gohup.Logfile := LogFilePath config;
              Gohup.Env := [];
              Gohup.Dir := "" |} in
  let o := {| Gohup.Path := Gohup.Path o; Gohup.Args := Gohup.Args o;
              Gohup.Logfile := Gohup.Logfile o;
              Gohup.Env := os_Environ host;
              Gohup.Dir := Gohup.Dir o |} in
  let o := match Env config with
           | Some _ =>
               {| Gohup.Path := Gohup.Path o; Gohup.Args := Gohup.Args o;
                  Gohup.Logfile := Gohup.Logfile o;
                  Gohup.Env := Gohup.Env o ++ Args config;
                  Gohup.Dir := Gohup.Dir o |}
           | None => o
           end in
  if String.eqb (WorkingDirectory config) "" then o
  else {| Gohup.Path := Gohup.Path o; Gohup.Args := Gohup.Args o;
          Gohup.Logfile := Gohup.Logfile o;
          Gohup.Env := Gohup.Env o;
          Gohup.Dir := WorkingDirectory config |}.

(** [time.Sleep(200 * time.Millisecond)] between two status queries; a
    query itself is taken to answer at once. *)
Definition poll_interval : N := Z.to_N (200 * Millisecond).

(** The loop of the goroutine, for the [n] queries that begin before the
    timer has expired: the calls made, and the first value the goroutine
    has for [doneCh] with the time at which it has it.  A query that
    fails offers [done{err, pid}]; one that reports [StatusStopped]
    breaks out of the loop to the final send, whose [err] is the error
    of [lp.Start].  The loop is followed up to that first send and no
    further: [doneCh] has no buffer and [Execute] receives from it once
    at most, so no later send comes through.  A send does not end the
    loop, though: how the goroutine goes on is in [poll_unheard]. *)
Fixpoint poll (host : Host) (pidfile : string) (pid : Z) (start_err : option error)
    (n : nat) (now : N) : list Call * option (N * done) :=
  match n with
  | O => ([], None)
  | S n' =>
      let '(s, err) := lp_QueryStatus host pidfile now in
      let call := CallQueryStatus pidfile now in
      match err with
      | Some e => ([call], Some (now, {| done_pid := pid; done_err := Some (ErrorOf e) |}))
      | None =>
          match s with
          | Gohup.StatusStopped =>
              ([call], Some (now, {| done_pid := pid; done_err := start_err |}))
          | _ =>
              let '(calls, first) := poll host pidfile pid start_err n' (now + poll_interval)%N in
              (call :: calls, first)
          end
      end
  end.

(** The number of queries that begin at or before [deadline] when the
    first one begins at [from]. *)
Definition polls_until (deadline from : N) : nat :=
  S (N.to_nat ((deadline - from) / poll_interval)).

(** The goroutine up to [deadline] and up to its first send: its calls
    and that send.  There is no [return] after the send that follows a
    failed [lp.Start]; [afterwards] says what comes next. *)
Definition goroutine (host : Host) (config : CommandConfig) (o : Gohup.Options)
    (deadline : N) : list Call * option (N * done) :=
  let '(pid, pidfile, err) := lp_Start host o in
  let started := started_at host o in
  if (deadline <? started)%N then ([CallStart o], None)
  else
    let err := ErrorOf <$> err in
    match err with
    | Some e => ([CallStart o], Some (started, {| done_pid := 0; done_err := Some e |}))
    | None =>
        if RunInBackground config
        then ([CallStart o], Some (started, {| done_pid := pid; done_err := err |}))
        else
          let '(calls, first) :=
            poll host pidfile pid err (polls_until deadline started) started in
          (CallStart o :: calls, first)
    end.

(** [Execute].  The timer of [time.After(c.timeout)] expires at
    [c.timeout], at once when that is zero or negative.  [select] takes
    the case that is ready first.  On the timer's case the variables
    [pid] and [pidfile] hold what [lp.Start] has assigned if it has
    returned, and their zero values otherwise. *)
Definition Execute (c : CommandImpl) (host : Host) (config : CommandConfig) : Outcome :=
  let o := options host config in
  let deadline := Z.to_N (timeout c) in
  let '(calls, first) := goroutine host config o deadline in
  let timed_out :=
    let '(pid, pidfile, _) := lp_Start host o in
    let '(pid, pidfile) :=
      if (started_at host o <=? deadline)%N then (pid, pidfile) else (0%Z, "") in
    {| pid := pid; err := Some ErrorCommandTimeout; returned_at := deadline;
       calls := calls ++ [CallStop pidfile] |} in
  match first with
  | Some (t, d) =>
      if (t <? deadline)%N || negb (select_timer_on_tie host)
      then {| pid := done_pid d; err := done_err d; returned_at := t; calls := calls |}
      else timed_out
  | None => timed_out
  end.


(** A status query ends the wait when it fails or reports
    [StatusStopped]. *)
Definition ends_wait (q : Gohup.Status * option string) : bool :=
  match q with
  | (_, Some _) => true
  | (Gohup.StatusStopped, None) => true
  | _ => false
  end.

(** The goroutine has a value for [doneCh] at time [t] or earlier:
    [lp.Start] has returned by then and has failed, or the command runs
    in the background, or one of the status queries made by then (every
    [poll_interval] from the return of [lp.Start]) has ended the wait. *)
Definition delivers_by (host : Host) (config : CommandConfig) (t : N) : Prop :=
  let o := options host config in
  (started_at host o <= t)%N /\
  (is_Some (lp_Start host o).2 \/
   RunInBackground config = true \/
   exists k : nat,
     (started_at host o + N.of_nat k * poll_interval <= t)%N /\
     ends_wait (lp_QueryStatus host (lp_Start host o).1.2
                  (started_at host o + N.of_nat k * poll_interval)%N) = true).

(** What the variables [pid] and [pidfile] hold at time [t]. *)
Definition last_known (host : Host) (config : CommandConfig) (t : N) : Z * string :=
  let o := options host config in
  if (started_at host o <=? t)%N then (lp_Start host o).1 else (0%Z, "").

(** ** Facts about the wait *)

Lemma poll_interval_pos : (0 < poll_interval)%N.
Proof. reflexivity. Qed.

Lemma polls_until_spec (deadline from : N) (k : nat) :
  (from <= deadline)%N ->
  (k < polls_until deadline from)%nat <-> (from + N.of_nat k * poll_interval <= deadline)%N.
Proof.
  intros Hle. unfold polls_until.
  pose proof poll_interval_pos as Hpos.
  assert (Hdiv : (N.of_nat k <= (deadline - from) / poll_interval <->
                  N.of_nat k * poll_interval <= deadline - from)%N).
  { split; intros H.
    - pose proof (N.Div0.mul_div_le (deadline - from) poll_interval) as Hm.
      apply N.le_trans with (poll_interval * ((deadline - from) / poll_interval))%N; [|done].
      rewrite (N.mul_comm poll_interval). by apply N.mul_le_mono_r.
    - apply N.div_le_lower_bound; [lia|]. by rewrite N.mul_comm. }
  split; intros H.
  - assert (N.of_nat k <= (deadline - from) / poll_interval)%N as H' by lia.
    apply Hdiv in H'. lia.
  - assert (N.of_nat k * poll_interval <= deadline - from)%N as H' by lia.
    apply Hdiv in H'. lia.
Qed.

(** The first value of the loop: it comes from the first query that ends
    the wait, it carries the pid, and its error is not the sentinel. *)
Lemma poll_first (host : Host) (pidfile : string) (p : Z) (n : nat) (now : N) :
  match (poll host pidfile p None n now).2 with
  | Some (t, d) =>
      exists k : nat,
        (k < n)%nat /\ t = (now + N.of_nat k * poll_interval)%N /\
        ends_wait (lp_QueryStatus host pidfile t) = true /\
        (forall j : nat, (j < k)%nat ->
           ends_wait (lp_QueryStatus host pidfile (now + N.of_nat j * poll_interval)%N) = false) /\
        done_pid d = p /\ done_err d <> Some ErrorCommandTimeout
  | None =>
      forall j : nat, (j < n)%nat ->
        ends_wait (lp_QueryStatus host pidfile (now + N.of_nat j * poll_interval)%N) = false
  end.
Proof.
  revert now. induction n as [|n IH]; intros now; cbn [poll].
  { cbn. intros j Hj. lia. }
  assert (Hnow : (now + N.of_nat 0 * poll_interval)%N = now) by lia.
  assert (Hshift : forall j : nat,
            (now + poll_interval + N.of_nat j * poll_interval)%N =
            (now + N.of_nat (S j) * poll_interval)%N) by (intros j; lia).
  destruct (lp_QueryStatus host pidfile now) as [s [e|]] eqn:Hq.
  { cbn. exists 0%nat. rewrite Hnow, Hq.
    repeat split; try done; try lia; try (by destruct s); intros; lia. }
  destruct s.
  2:{ cbn. exists 0%nat. rewrite Hnow, Hq. repeat split; try done; try lia; intros; lia. }
  all: specialize (IH (now + poll_interval)%N);
    destruct (poll host pidfile p None n (now + poll_interval)%N) as [calls [[t d]|]];
    cbn [snd] in *.
  all: try (destruct IH as (k & Hk & -> & Hends & Hmin & Hpid & Herr);
            exists (S k); rewrite <- Hshift;
            repeat split; [lia|done| |done|done];
            intros [|j] Hj; [by rewrite Hnow, Hq|rewrite <- Hshift; apply Hmin; lia]).
  all: intros [|j] Hj; [by rewrite Hnow, Hq|rewrite <- Hshift; apply IH; lia].
Qed.

(** The loop makes status queries and nothing else. *)
Lemma poll_calls (host : Host) (pidfile : string) (p : Z) (e : option error)
    (n : nat) (now : N) (c : Call) :
  c ∈ (poll host pidfile p e n now).1 -> exists pf t, c = CallQueryStatus pf t.
Proof.
  revert now. induction n as [|n IH]; intros now; cbn [poll].
  { intros H. by apply elem_of_nil in H. }
  destruct (lp_QueryStatus host pidfile now) as [s [e'|]].
  { cbn. intros H. apply list_elem_of_singleton in H. eauto. }
  specialize (IH (now + poll_interval)%N).
  destruct s; destruct (poll host pidfile p e n (now + poll_interval)%N) as [calls first];
    cbn in *; intros H.
  2:{ apply list_elem_of_singleton in H. eauto. }
  all: apply elem_of_cons in H as [->|H]; eauto.
Qed.

Lemma delivers_by_mono (host : Host) (config : CommandConfig) (t t' : N) :
  (t <= t')%N -> delivers_by host config t -> delivers_by host config t'.
Proof.
  intros Hle [Hs H]. split; [lia|].
  destruct H as [H|[H|(k & Hk & H)]]; [by left|by right; left|].
  right; right. exists k. split; [lia|done].
Qed.

(** The first send of the goroutine comes at the first moment at which
    it has a value, and never carries the sentinel. *)
Lemma goroutine_first (host : Host) (config : CommandConfig) (deadline : N) :
  match (goroutine host config (options host config) deadline).2 with
  | Some (t, d) =>
      (t <= deadline)%N /\ delivers_by host config t /\
      (forall t', (t' < t)%N -> ~ delivers_by host config t') /\
      done_err d <> Some ErrorCommandTimeout
  | None => ~ delivers_by host config deadline
  end.
Proof.
  unfold goroutine, delivers_by.
  set (o := options host config).
  destruct (lp_Start host o) as [[p pidfile] e] eqn:Hstart. cbn [fst snd].
  destruct (deadline <? started_at host o)%N eqn:Hlate.
  { cbn. apply N.ltb_lt in Hlate. intros [H _]. lia. }
  apply N.ltb_ge in Hlate.
  destruct e as [e|]; cbn [fmap option_fmap option_map].
  { cbn. repeat split; [done|lia|by left|intros t' Ht' [H _]; lia|done]. }
  destruct (RunInBackground config) eqn:Hbg.
  { cbn. repeat split; [done|lia|by right; left|intros t' Ht' [H _]; lia|done]. }
  pose proof (poll_first host pidfile p (polls_until deadline (started_at host o))
                (started_at host o)) as Hpoll.
  destruct (poll host pidfile p None _ _) as [calls [[t d]|]]; cbn [snd] in *.
  - destruct Hpoll as (k & Hk & -> & Hends & Hmin & Hpid & Herr).
    apply polls_until_spec in Hk; [|done].
    repeat split; [done|lia| |  |done].
    + right; right. exists k. split; [lia|done].
    + intros t' Ht' [Hs [H|[H|(j & Hj & H)]]].
      * by destruct H.
      * done.
      * assert (j < k)%nat as Hjk.
        { pose proof poll_interval_pos.
          destruct (decide (j < k)%nat); [done|].
          assert (N.of_nat k * poll_interval <= N.of_nat j * poll_interval)%N; [|lia].
          apply N.mul_le_mono_r. lia. }
        rewrite (Hmin j Hjk) in H. done.
  - intros [Hs [H|[H|(k & Hk & H)]]].
    + by destruct H.
    + done.
    + apply polls_until_spec in Hk; [|done]. by rewrite (Hpoll k Hk) in H.
Qed.


(** The environment of the launched command. *)
Lemma options_Env (host : Host) (config : CommandConfig) :
  Gohup.Env (options host config) =
  os_Environ host ++ match Env config with Some _ => Args config | None => [] end.
Proof.
  unfold options.
  destruct (Env config), (String.eqb (WorkingDirectory config) ""); cbn;
    by rewrite ?app_nil_r.
Qed.

Lemma Execute_starts (c : CommandImpl) (host : Host) (config : CommandConfig) :
  exists rest, calls (Execute c host config) = CallStart (options host config) :: rest.
Proof.
  unfold Execute, goroutine.
  set (o := options host config). set (T := Z.to_N (timeout c)).
  destruct (lp_Start host o) as [[p pidfile] e].
  destruct (T <? started_at host o)%N; [cbn; by destruct (_ <=? _)%N; eauto|].
  destruct e as [e|]; cbn [fmap option_fmap option_map].
  { destruct (_ || _); [by eauto|]. cbn; by destruct (_ <=? _)%N; eauto. }
  destruct (RunInBackground config).
  { destruct (_ || _); [by eauto|]. cbn; by destruct (_ <=? _)%N; eauto. }
  destruct (poll host pidfile p None _ _) as [cs [[t d]|]].
  - destruct (_ || _); [by eauto|]. cbn; by destruct (_ <=? _)%N; eauto.
  - cbn; by destruct (_ <=? _)%N; eauto.
Qed.

(** C3, as the code has it.  [Execute] returns [ErrorCommandTimeout]
    exactly when the timer expires before the goroutine has a value to
    deliver: no value at any earlier moment, and at the moment of expiry
    either no value or a [select] that takes the timer's case.  Whether
    the command runs in the foreground and whether the timeout is
    positive play no part: a timeout of zero (or less) expires at once.
    With the error come the pid as last assigned (that of [lp.Start] if
    it has returned, zero otherwise) and, as the last call before the
    return, a [Stop] on the pid file as last assigned. *)
Theorem Execute_timeout_iff (c : CommandImpl) (host : Host) (config : CommandConfig) :
  let r := Execute c host config in
  let T := Z.to_N (timeout c) in
  (err r = Some ErrorCommandTimeout <->
   (forall t, (t < T)%N -> ~ delivers_by host config t) /\
   (delivers_by host config T -> select_timer_on_tie host = true)) /\
  (err r = Some ErrorCommandTimeout ->
   pid r = (last_known host config T).1 /\
   returned_at r = T /\
   exists before, calls r = before ++ [CallStop (last_known host config T).2]) /\
  ((timeout c <= 0)%Z ->
   (err r = Some ErrorCommandTimeout <->
    (delivers_by host config 0 -> select_timer_on_tie host = true))).
Proof.
  intros r T.
  pose proof (goroutine_first host config T) as Hfirst.
  assert (Hiff : err r = Some ErrorCommandTimeout <->
            (forall t, (t < T)%N -> ~ delivers_by host config t) /\
            (delivers_by host config T -> select_timer_on_tie host = true)).
  { subst r. unfold Execute. fold T.
    destruct (goroutine host config (options host config) T) as [cs [[t d]|]];
      cbn [snd] in Hfirst.
    - destruct Hfirst as (Hle & Hdel & Hmin & Herr).
      destruct (t <? T)%N eqn:Hlt; cbn [orb].
      + apply N.ltb_lt in Hlt. cbn. split; [done|]. intros [H _]. by destruct (H t Hlt).
      + apply N.ltb_ge in Hlt. assert (t = T) as -> by lia.
        destruct (select_timer_on_tie host); cbn [negb].
        * destruct (lp_Start host _) as [[p pf] e]. destruct (_ <=? _)%N; cbn; by split.
        * cbn. split; [done|]. intros [_ H]. by specialize (H Hdel).
    - destruct (lp_Start host _) as [[p pf] e]. destruct (_ <=? _)%N; cbn.
      all: split; [intros _|done].
      all: split; [|by intros H].
      all: intros t Ht H; apply Hfirst; eapply delivers_by_mono; [|done]; lia. }
  split; [done|]. split.
  - subst r. unfold Execute, last_known. fold T.
    destruct (goroutine host config (options host config) T) as [cs [[t d]|]];
      cbn [snd] in Hfirst.
    + destruct Hfirst as (_ & _ & _ & Hne).
      destruct (_ || _).
      * cbn. intros Herr. by destruct Hne.
      * destruct (lp_Start host _) as [[p pf] e]. destruct (_ <=? _)%N; cbn; eauto.
    + destruct (lp_Start host _) as [[p pf] e]. destruct (_ <=? _)%N; cbn; eauto.
  - intros Hzero. assert (T = 0%N) as HT by (subst T; lia).
    rewrite HT in Hiff. rewrite Hiff. split; [by intros [_ H]|].
    intros H. split; [|done]. intros t Ht. lia.
Qed.



(** ** Instances *)

(** A host with one variable in its environment, on which a command
    has started (as pid 4242) [start] nanoseconds after the call and
    stops at the given moment, or never. *)
Definition host_of (start : N) (stops_at : option N) : Host :=
  {| os_Environ := ["PATH=/usr/bin"];
     lp_Start := fun _ => (4242%Z, "/tmp/4242.pid", None);
     started_at := fun _ => start;
     lp_QueryStatus := fun _ t =>
       (match stops_at with
        | Some s => if (s <=? t)%N then Gohup.StatusStopped else Gohup.StatusRunning
        | None => Gohup.StatusRunning
        end, None);
     select_timer_on_tie := false |}.

Definition ms (n : N) : N := (n * 1000000)%N.

Definition sleep_config (background : bool) : CommandConfig :=
  {| Command := "/bin/sleep"; Args := ["60"]; Env := None;
     WorkingDirectory := ""; RunInBackground := background;
     LogFilePath := "/tmp/sleep.log" |}.

Definition env_config : CommandConfig :=
  {| Command := "/bin/sh"; Args := ["-c"; "env"]; Env := Some ["GREETING=hello"];
     WorkingDirectory := ""; RunInBackground := false;
     LogFilePath := "/tmp/env.log" |}.

Example Execute_foreground_completes :
  let r := Execute (NewCommand (30 * Second)) (host_of (ms 5) (Some (ms 500)))
             (sleep_config false) in
  pid r = 4242%Z /\ err r = None /\ returned_at r = ms 605.
Proof. vm_compute. done. Qed.

(** C1, at a configuration with a non-nil [Env].  The command is
    launched with the ambient environment followed by the arguments of
    the command: [Execute] appends [config.Args] where the entries of
    [config.Env] belong, and the configured entry is not passed on. *)
Theorem Execute_env_appends_Args :
  let host := host_of (ms 5) (Some (ms 10)) in
  let o := options host env_config in
  Env env_config = Some ["GREETING=hello"] /\
  Gohup.Env o = ["PATH=/usr/bin"; "-c"; "env"] /\
  Gohup.Env o <> os_Environ host ++ ["GREETING=hello"] /\
  ("GREETING=hello" ∉ Gohup.Env o) /\
  exists rest,
    calls (Execute (NewCommand (30 * Second)) host env_config) = CallStart o :: rest.
Proof.
  intros host o. repeat split.
  - discriminate.
  - intros Hin. vm_compute in Hin.
    repeat (apply elem_of_cons in Hin as [Hin|Hin]; [discriminate|]).
    by apply elem_of_nil in Hin.
  - apply Execute_starts.
Qed.

(** The condition under which the specification expects the timeout
    error: foreground, a positive timeout, and a process that is not
    stopped when the timeout expires. *)
Definition expected_timeout (c : CommandImpl) (host : Host) (config : CommandConfig)
    : Prop :=
  RunInBackground config = false /\
  (0 < timeout c)%Z /\
  (lp_QueryStatus host (lp_Start host (options host config)).1.2
     (Z.to_N (timeout c))).1 <> Gohup.StatusStopped.

(** C3 fails as stated.  With a timeout of zero a foreground command
    that keeps running gets the timeout error; and a background command
    whose start takes longer than the timeout gets it as well. *)
Lemma Execute_timeout_counterexample :
  let host := host_of (ms 5) None in
  (timeout (NewCommand 0) = 0%Z /\
   err (Execute (NewCommand 0) host (sleep_config false)) = Some ErrorCommandTimeout /\
   ~ (err (Execute (NewCommand 0) host (sleep_config false)) = Some ErrorCommandTimeout <->
      expected_timeout (NewCommand 0) host (sleep_config false))) /\
  (RunInBackground (sleep_config true) = true /\
   err (Execute (NewCommand Millisecond) host (sleep_config true))
     = Some ErrorCommandTimeout /\
   ~ (err (Execute (NewCommand Millisecond) host (sleep_config true))
        = Some ErrorCommandTimeout <->
      expected_timeout (NewCommand Millisecond) host (sleep_config true))).
Proof.
  intros host. split; (split; [reflexivity|split; [reflexivity|]]).
  - intros [H _]. destruct (H eq_refl) as (_ & Hpos & _). vm_compute in Hpos. done.
  - intros [H _]. destruct (H eq_refl) as (Hfg & _). done.
Qed.

Lemma Execute_timeout_iff_witness :
  let r := Execute (NewCommand Second) (host_of (ms 5) None) (sleep_config false) in
  pid r = 4242%Z /\ returned_at r = ms 1000 /\
  exists before, calls r = before ++ [CallStop "/tmp/4242.pid"].
Proof.
  exact (proj1 (proj2 (Execute_timeout_iff (NewCommand Second) (host_of (ms 5) None)
                         (sleep_config false))) eq_refl).
Defined.




(** ** More on [Execute]: completion, launch failure, and the calls made *)

(** The status queries made on a pid file from [from] on, [n] of them. *)
Definition queries (pidfile : string) (from : N) (n : nat) : list Call :=
  map (fun j => CallQueryStatus pidfile (from + N.of_nat j * poll_interval)%N) (seq 0 n).

(** The loop of the goroutine once nobody receives from [doneCh] any
    more, [Execute] having received a value or taken the timer's case.
    A send blocks for ever then.  The goroutine makes its queries up to
    the first that fails, where it blocks in the send of the error, or
    that reports [StatusStopped], where it breaks out of the loop and
    blocks in the final send.  [n] bounds the number of queries that
    are looked at: the loop need not end. *)
Fixpoint poll_unheard (host : Host) (pidfile : string) (n : nat) (now : N) : list Call :=
  match n with
  | O => []
  | S n' =>
      let '(s, err) := lp_QueryStatus host pidfile now in
      CallQueryStatus pidfile now ::
      match err with
      | Some _ => []
      | None =>
          match s with
          | Gohup.StatusStopped => []
          | _ => poll_unheard host pidfile n' (now + poll_interval)%N
          end
      end
  end.

(** The calls the goroutine makes after [select] has taken its case, at
    most [n] of them.

    When [Execute] has received the goroutine's first send, the
    goroutine goes on from that send.  After the send that follows a
    failed [lp.Start] it comes to the loop, unless the command runs in
    the background, and at last to the final send, where it blocks.
    After the send of a failed query it breaks out of the loop if the
    status was [StatusStopped] and sleeps and queries again otherwise.
    After the final send it is over.

    When [select] has taken the timer's case, the goroutine either has
    a value and is blocked in its first send, or it has none and goes
    on from where it is: to the return of [lp.Start] if that is still to
    come, to its next query otherwise. *)
Definition afterwards (c : CommandImpl) (host : Host) (config : CommandConfig) (n : nat)
    : list Call :=
  let o := options host config in
  let deadline := Z.to_N (timeout c) in
  let '(_, pidfile, start_err) := lp_Start host o in
  let started := started_at host o in
  let loop from :=
    if RunInBackground config then [] else poll_unheard host pidfile n from in
  match (goroutine host config o deadline).2 with
  | Some (t, _) =>
      if (t <? deadline)%N || negb (select_timer_on_tie host) then
        match start_err with
        | Some _ => loop started
        | None =>
            if RunInBackground config then []
            else
              match (lp_QueryStatus host pidfile t).1 with
              | Gohup.StatusStopped => []
              | _ => loop (t + poll_interval)%N
              end
        end
      else []
  | None =>
      if (deadline <? started)%N then
        match start_err with
        | Some _ => []
        | None => loop started
        end
      else loop (started + N.of_nat (polls_until deadline started) * poll_interval)%N
  end.

Lemma queries_S (pidfile : string) (from : N) (n : nat) :
  queries pidfile from (S n) =
  CallQueryStatus pidfile from :: queries pidfile (from + poll_interval)%N n.
Proof.
  unfold queries. cbn [seq map]. f_equal; [f_equal; lia|].
  rewrite <- seq_shift, map_map. apply map_ext. intros j. f_equal. lia.
Qed.

(** The loop when the [k]-th query is the first to end the wait. *)
Lemma poll_completes (host : Host) (pidfile : string) (p : Z) (e : option error)
    (n k : nat) (now : N) :
  (k < n)%nat ->
  (forall j : nat, (j < k)%nat ->
     ends_wait (lp_QueryStatus host pidfile (now + N.of_nat j * poll_interval)%N) = false) ->
  ends_wait (lp_QueryStatus host pidfile (now + N.of_nat k * poll_interval)%N) = true ->
  poll host pidfile p e n now =
  (queries pidfile now (S k),
   Some ((now + N.of_nat k * poll_interval)%N,
         {| done_pid := p;
            done_err :=
              match (lp_QueryStatus host pidfile (now + N.of_nat k * poll_interval)%N).2 with
              | Some m => Some (ErrorOf m)
              | None => e
              end |})).
Proof.
  revert k now. induction n as [|n IH]; intros k now Hk Hmin Hends; [lia|].
  assert (Hnow : (now + N.of_nat 0 * poll_interval)%N = now) by lia.
  assert (Hshift : forall j : nat,
            (now + poll_interval + N.of_nat j * poll_interval)%N =
            (now + N.of_nat (S j) * poll_interval)%N) by (intros j; lia).
  rewrite queries_S. cbn [poll].
  destruct k as [|k].
  - rewrite Hnow in *.
    destruct (lp_QueryStatus host pidfile now) as [st [m|]]; [done|].
    by destruct st.
  - pose proof (Hmin 0%nat ltac:(lia)) as H0. rewrite Hnow in H0.
    destruct (lp_QueryStatus host pidfile now) as [st [m|]]; [by destruct st|].
    destruct st; [|done|].
    all: rewrite (IH k (now + poll_interval)%N); [by rewrite Hshift|lia| |by rewrite Hshift].
    all: intros j Hj; rewrite Hshift; apply Hmin; lia.
Qed.

(** The calls of the loop are status queries on the one pid file, one
    [poll_interval] apart. *)
Lemma poll_calls_shape (host : Host) (pidfile : string) (p : Z) (e : option error)
    (n : nat) (now : N) :
  exists m, (m <= n)%nat /\ (poll host pidfile p e n now).1 = queries pidfile now m.
Proof.
  revert now. induction n as [|n IH]; intros now; [by exists 0%nat|].
  cbn [poll].
  destruct (lp_QueryStatus host pidfile now) as [st [m|]].
  { exists 1%nat. split; [lia|]. by rewrite queries_S. }
  destruct (IH (now + poll_interval)%N) as (m & Hm & Hcalls).
  destruct st; destruct (poll host pidfile p e n (now + poll_interval)%N) as [cs first];
    cbn [fst] in *.
  2:{ exists 1%nat. split; [lia|]. by rewrite queries_S. }
  all: exists (S m); split; [lia|]; by rewrite queries_S, Hcalls.
Qed.



(** As long as no query fails or reports stopped, the loop goes on. *)
Lemma poll_unheard_goes_on (host : Host) (pidfile : string) (n : nat) (now : N) :
  (forall j : nat, (j < n)%nat ->
     ends_wait (lp_QueryStatus host pidfile (now + N.of_nat j * poll_interval)%N) = false) ->
  poll_unheard host pidfile n now = queries pidfile now n.
Proof.
  revert now. induction n as [|n IH]; intros now Hrun; [done|].
  assert (Hnow : (now + N.of_nat 0 * poll_interval)%N = now) by lia.
  rewrite queries_S. cbn [poll_unheard].
  pose proof (Hrun 0%nat ltac:(lia)) as H0. rewrite Hnow in H0.
  destruct (lp_QueryStatus host pidfile now) as [st [msg|]]; [by destruct st|].
  destruct st; [|done|].
  all: rewrite IH; [done|].
  all: intros j Hj.
  all: replace (now + poll_interval + N.of_nat j * poll_interval)%N
         with (now + N.of_nat (S j) * poll_interval)%N by lia.
  all: apply Hrun; lia.
Qed.

(** A foreground command whose start succeeds and for which the first
    status query to fail or to report stopped comes before the timer
    expires: [Execute] returns at that query with the pid of [lp.Start]
    and the error of the query (none when it reported stopped), having
    queried the status every [poll_interval] since the start and having
    stopped nothing. *)
Theorem Execute_foreground_returns (c : CommandImpl) (host : Host) (config : CommandConfig)
    (p : Z) (pidfile : string) (k : nat) :
  let o := options host config in
  let t := (started_at host o + N.of_nat k * poll_interval)%N in
  RunInBackground config = false ->
  lp_Start host o = (p, pidfile, None) ->
  (t < Z.to_N (timeout c))%N ->
  (forall j : nat, (j < k)%nat ->
     ends_wait (lp_QueryStatus host pidfile
                  (started_at host o + N.of_nat j * poll_interval)%N) = false) ->
  ends_wait (lp_QueryStatus host pidfile t) = true ->
  Execute c host config =
  {| pid := p;
     err := ErrorOf <$> (lp_QueryStatus host pidfile t).2;
     returned_at := t;
     calls := CallStart o :: queries pidfile (started_at host o) (S k) |}.
Proof.
  intros o t Hfg Hstart Hearly Hmin Hends.
  unfold Execute, goroutine. fold o. rewrite Hstart, Hfg.
  assert (started_at host o <= Z.to_N (timeout c))%N as Hle by (subst t; lia).
  destruct (Z.to_N (timeout c) <? started_at host o)%N eqn:E; [apply N.ltb_lt in E; lia|].
  cbn [fmap option_fmap option_map].
  rewrite (poll_completes host pidfile p None _ k); [|by apply polls_until_spec; [|fold t; lia]|done..].
  fold t. apply N.ltb_lt in Hearly. rewrite Hearly. cbn [orb].
  by destruct (lp_QueryStatus host pidfile t).2.
Qed.

(** A command that cannot be launched: when [lp.Start] fails before the
    timer expires, [Execute] returns its error at once, with pid zero
    whatever [lp.Start] gave for a pid, in the foreground as in the
    background, and has made no other call by then.  The goroutine does
    not end with that send.  For a background command it comes to the
    final send and makes no call any more; for a foreground command it
    enters the loop and queries the status of the pid file [lp.Start]
    gave, until a query fails or reports stopped. *)
Theorem Execute_launch_failure (c : CommandImpl) (host : Host) (config : CommandConfig)
    (p : Z) (pidfile msg : string) :
  let o := options host config in
  lp_Start host o = (p, pidfile, Some msg) ->
  (started_at host o < Z.to_N (timeout c))%N ->
  Execute c host config =
  {| pid := 0; err := Some (ErrorOf msg); returned_at := started_at host o;
     calls := [CallStart o] |} /\
  (forall n : nat,
     afterwards c host config n =
     if RunInBackground config then []
     else poll_unheard host pidfile n (started_at host o)) /\
  (RunInBackground config = false ->
   forall n : nat,
     (forall j : nat, (j < n)%nat ->
        ends_wait (lp_QueryStatus host pidfile
                     (started_at host o + N.of_nat j * poll_interval)%N) = false) ->
     afterwards c host config n = queries pidfile (started_at host o) n).
Proof.
  intros o Hstart Hearly.
  assert (Hafter : forall n : nat,
            afterwards c host config n =
            if RunInBackground config then []
            else poll_unheard host pidfile n (started_at host o)).
  { intros n. unfold afterwards, goroutine. fold o. rewrite Hstart.
    destruct (Z.to_N (timeout c) <? started_at host o)%N eqn:E; [apply N.ltb_lt in E; lia|].
    cbn [fmap option_fmap option_map snd].
    apply N.ltb_lt in Hearly. by rewrite Hearly. }
  split; [|split; [done|]].
  - unfold Execute, goroutine. fold o. rewrite Hstart.
    destruct (Z.to_N (timeout c) <? started_at host o)%N eqn:E; [apply N.ltb_lt in E; lia|].
    cbn [fmap option_fmap option_map].
    apply N.ltb_lt in Hearly. by rewrite Hearly.
  - intros Hfg n Hrun. rewrite Hafter, Hfg. by apply poll_unheard_goes_on.
Qed.

(** A result other than the timeout error is returned no earlier than
    the return of [lp.Start] and no later than the expiry of the
    timer. *)
Theorem Execute_result_in_time (c : CommandImpl) (host : Host) (config : CommandConfig) :
  err (Execute c host config) <> Some ErrorCommandTimeout ->
  (started_at host (options host config) <= returned_at (Execute c host config))%N /\
  (returned_at (Execute c host config) <= Z.to_N (timeout c))%N.
Proof.
  pose proof (goroutine_first host config (Z.to_N (timeout c))) as Hfirst.
  unfold Execute.
  destruct (goroutine host config (options host config) (Z.to_N (timeout c)))
    as [cs [[t d]|]]; cbn [snd] in Hfirst.
  - destruct Hfirst as (Hle & [Hstarted _] & _).
    destruct (_ || _).
    + cbn. by intros _.
    + destruct (lp_Start host _) as [[p pf] e]. by destruct (_ <=? _)%N.
  - destruct (lp_Start host _) as [[p pf] e]. by destruct (_ <=? _)%N.
Qed.


Lemma Execute_foreground_returns_witness :
  Execute (NewCommand (30 * Second)) (host_of (ms 5) (Some (ms 500))) (sleep_config false) =
  {| pid := 4242; err := None; returned_at := ms 605;
     calls := CallStart (options (host_of (ms 5) (Some (ms 500))) (sleep_config false))
              :: queries "/tmp/4242.pid" (ms 5) 4 |}.
Proof.
  apply (Execute_foreground_returns (NewCommand (30 * Second))
           (host_of (ms 5) (Some (ms 500))) (sleep_config false) 4242 "/tmp/4242.pid" 3).
  - reflexivity.
  - reflexivity.
  - reflexivity.
  - intros j Hj.
    destruct j as [|[|[|j]]]; [reflexivity..|lia].
  - reflexivity.
Defined.

(** A host on which the command cannot be launched. *)
Definition failing_host (start : N) : Host :=
  {| os_Environ := ["PATH=/usr/bin"];
     lp_Start := fun _ => ((-1)%Z, "", Some "fork/exec /bin/sleep: no such file or directory");
     started_at := fun _ => start;
     lp_QueryStatus := fun _ _ => (Gohup.StatusUnknown, None);
     select_timer_on_tie := false |}.

Lemma Execute_launch_failure_witness :
  Execute (NewCommand (30 * Second)) (failing_host (ms 1)) (sleep_config false) =
  {| pid := 0;
     err := Some (ErrorOf "fork/exec /bin/sleep: no such file or directory");
     returned_at := ms 1;
     calls := [CallStart (options (failing_host (ms 1)) (sleep_config false))] |} /\
  afterwards (NewCommand (30 * Second)) (failing_host (ms 1)) (sleep_config false) 3 =
  [CallQueryStatus "" (ms 1); CallQueryStatus "" (ms 201); CallQueryStatus "" (ms 401)].
Proof.
  destruct (Execute_launch_failure (NewCommand (30 * Second)) (failing_host (ms 1))
              (sleep_config false) (-1)%Z "" "fork/exec /bin/sleep: no such file or directory"
              eq_refl eq_refl) as (Hreturn & Hafter & _).
  split; [exact Hreturn|]. rewrite Hafter. reflexivity.
Defined.

Lemma Execute_result_in_time_witness :
  let r := Execute (NewCommand (30 * Second)) (host_of (ms 5) (Some (ms 500)))
             (sleep_config false) in
  (ms 5 <= returned_at r)%N /\ (returned_at r <= ms 30000)%N.
Proof.
  apply (Execute_result_in_time (NewCommand (30 * Second)) (host_of (ms 5) (Some (ms 500)))
           (sleep_config false)).
  vm_compute. discriminate.
Defined.

(** A host on which the second status query fails while the process
    runs on, to stop 805 ms after the call. *)
Definition flaky_host : Host :=
  {| os_Environ := ["PATH=/usr/bin"];
     lp_Start := fun _ => (7%Z, "/tmp/7.pid", None);
     started_at := fun _ => ms 5;
     lp_QueryStatus := fun _ t =>
       if (t =? ms 205)%N then (Gohup.StatusRunning, Some "read error")
       else if (ms 805 <=? t)%N then (Gohup.StatusStopped, None)
       else (Gohup.StatusRunning, None);
     select_timer_on_tie := false |}.

(** [Execute] returns the error of the failed query; the goroutine
    sleeps and queries on until the process has stopped, and another
    failed query would leave it blocked in its send. *)
Example Execute_goroutine_goes_on :
  let c := NewCommand (30 * Second) in
  let r := Execute c flaky_host (sleep_config false) in
  pid r = 7%Z /\ err r = Some (ErrorOf "read error") /\ returned_at r = ms 205 /\
  afterwards c flaky_host (sleep_config false) 10 =
  [CallQueryStatus "/tmp/7.pid" (ms 405); CallQueryStatus "/tmp/7.pid" (ms 605);
   CallQueryStatus "/tmp/7.pid" (ms 805)] /\
  afterwards (NewCommand Millisecond) flaky_host (sleep_config false) 10 =
  [CallQueryStatus "/tmp/7.pid" (ms 5); CallQueryStatus "/tmp/7.pid" (ms 205)].
Proof. vm_compute. done. Qed.

(** ** [Kill] and the pid file *)

(** [fmt.Sprintf("%d.pid", pid)]. *)
Definition pid_file_name (pid : Z) : string :=
  DecimalString.NilZero.string_of_int (Z.to_int pid) +:+ ".pid".

(** The pid file [Kill] addresses: [filepath.Join(os.TempDir(), ...)]. *)
Definition pid_file (os_TempDir : string) (filepath_Join : string -> string -> string)
    (pid : Z) : string :=
  filepath_Join os_TempDir (pid_file_name pid).

(** [Kill]: whatever [lp.Stop] says of the pid file. *)
Definition Kill (os_TempDir : string) (filepath_Join : string -> string -> string)
    (lp_Stop : string -> option error) (pid : Z) : option error :=
  lp_Stop (pid_file os_TempDir filepath_Join pid).

Example pid_file_name_examples :
  pid_file_name 4242 = "4242.pid" /\ pid_file_name 0 = "0.pid" /\
  pid_file_name (-1) = "-1.pid".
Proof. repeat split. Qed.

Lemma string_length_app (a b : string) :
  String.length (a +:+ b) = String.length a + String.length b.
Proof.
  induction a as [|x a IH]; [reflexivity|].
  change (S (String.length (a +:+ b)) = S (String.length a + String.length b)).
  by rewrite IH.
Qed.

Lemma string_app_inj_r (a b s : string) : a +:+ s = b +:+ s -> a = b.
Proof.
  revert b. induction a as [|x a IH]; intros [|y b] H.
  - done.
  - apply (f_equal String.length) in H. rewrite !string_length_app in H. cbn in H. lia.
  - apply (f_equal String.length) in H. rewrite !string_length_app in H. cbn in H. lia.
  - change (String x (a +:+ s) = String y (b +:+ s)) in H.
    injection H as -> H. f_equal. by apply IH.
Qed.

Lemma Z_to_int_proper (z : Z) :
  Z.to_int z <> Decimal.Pos Decimal.Nil /\ Z.to_int z <> Decimal.Neg Decimal.Nil.
Proof.
  destruct z as [|p|p]; cbn; split; try discriminate.
  - intros [= H]. by apply (DecimalPos.Unsigned.to_uint_nonnil p).
  - intros [= H]. by apply (DecimalPos.Unsigned.to_uint_nonnil p).
Qed.

Lemma pid_file_name_inj (pid1 pid2 : Z) :
  pid_file_name pid1 = pid_file_name pid2 -> pid1 = pid2.
Proof.
  unfold pid_file_name. intros H. apply string_app_inj_r in H.
  apply (f_equal DecimalString.NilZero.int_of_string) in H.
  destruct (Z_to_int_proper pid1) as [H1 H1'], (Z_to_int_proper pid2) as [H2 H2'].
  rewrite !DecimalString.NilZero.isi in H by done.
  injection H as H. by apply DecimalZ.to_int_inj.
Qed.

(** A path separator, of either kind of host. *)
Definition is_separator (c : ascii) : bool := Ascii.eqb c "/" || Ascii.eqb c "\".

Fixpoint has_separator (s : string) : bool :=
  match s with
  | EmptyString => false
  | String c s' => is_separator c || has_separator s'
  end.

(** A file name of one element: it is not empty, it is neither ["."] nor
    [".."], and it holds no separator.  [filepath.Join] cleans what it
    joins, so it keeps two names apart only if they are of this kind:
    it sends ["4242.pid"] and ["./4242.pid"] to the same path. *)
Definition single_element (s : string) : Prop :=
  has_separator s = false /\ s <> "" /\ s <> "." /\ s <> "..".

Lemma has_separator_app (a b : string) :
  has_separator (a +:+ b) = has_separator a || has_separator b.
Proof.
  induction a as [|x a IH]; [reflexivity|].
  change (is_separator x || has_separator (a +:+ b) =
          is_separator x || has_separator a || has_separator b).
  by rewrite IH, orb_assoc.
Qed.

Lemma string_of_uint_no_separator (d : Decimal.uint) :
  has_separator (DecimalString.NilZero.string_of_uint d) = false.
Proof.
  assert (H : forall d, has_separator (DecimalString.NilEmpty.string_of_uint d) = false).
  { intros d'. induction d' as [|d' IH|d' IH|d' IH|d' IH|d' IH|d' IH|d' IH|d' IH|d' IH|d' IH];
      [reflexivity|exact IH..]. }
  destruct d; [reflexivity|apply H..].
Qed.

(** The name [Kill] joins to the temporary directory is the pid in
    decimal followed by [".pid"]: a name of one element. *)
Lemma pid_file_name_single (pid : Z) : single_element (pid_file_name pid).
Proof.
  unfold single_element, pid_file_name. split.
  - rewrite has_separator_app. apply orb_false_iff. split; [|reflexivity].
    unfold DecimalString.NilZero.string_of_int.
    destruct (Z.to_int pid) as [d|d].
    + apply string_of_uint_no_separator.
    + change (has_separator (DecimalString.NilZero.string_of_uint d) = false).
      apply string_of_uint_no_separator.
  - repeat split; intros H; apply (f_equal String.length) in H;
      rewrite string_length_app in H; cbn in H; lia.
Qed.

(** Two pids never share a pid file: [filepath.Join] keeps two names of
    one element apart, the names [Kill] builds are of that kind and
    differ for different pids, so [Kill] of one pid addresses a file
    that [Kill] of no other pid addresses. *)
Theorem Kill_pid_files_differ (os_TempDir : string)
    (filepath_Join : string -> string -> string) (pid1 pid2 : Z) :
  (forall a b, single_element a -> single_element b ->
     filepath_Join os_TempDir a = filepath_Join os_TempDir b -> a = b) ->
  pid_file os_TempDir filepath_Join pid1 = pid_file os_TempDir filepath_Join pid2 ->
  pid1 = pid2.
Proof.
  intros Hinj H. unfold pid_file in H.
  apply pid_file_name_inj, Hinj; [apply pid_file_name_single..|done].
Qed.

(** The path elements of a name without a separator: the name. *)
Lemma path_elements_single (a : string) :
  has_separator a = false -> Dirhash.path_elements a = [a].
Proof.
  induction a as [|x a IH]; [done|].
  cbn [has_separator Dirhash.path_elements]. intros H.
  apply orb_false_iff in H as [Hx Ha].
  unfold is_separator in Hx. apply orb_false_iff in Hx as [Hx _].
  rewrite Hx. by rewrite (IH Ha).
Qed.

(** [filepath.Join] on a Unix host, of ["/tmp"] and a name of one
    element. *)
Lemma unix_Join_tmp (a : string) :
  single_element a -> Dirhash.unix_Join "/tmp" a = "/tmp/" +:+ a.
Proof.
  intros (Hsep & Hne & Hdot & _).
  unfold Dirhash.unix_Join.
  apply String.eqb_neq in Hne, Hdot.
  rewrite Hne. cbn [String.eqb Ascii.eqb].
  change ("/tmp" +:+ "/" +:+ a)
    with (String "/" (String "t" (String "m" (String "p" (String "/" a))))).
  unfold Dirhash.unix_Clean.
  cbn [Dirhash.path_elements]. rewrite (path_elements_single a Hsep).
  cbn. by rewrite Hne, Hdot.
Qed.

Lemma Kill_pid_files_differ_witness :
  pid_file "/tmp" Dirhash.unix_Join 4242 = "/tmp/4242.pid" /\
  pid_file "/tmp" Dirhash.unix_Join 4242 <> pid_file "/tmp" Dirhash.unix_Join 4243.
Proof.
  split; [reflexivity|].
  intros Hsame.
  assert (4242 = 4243)%Z as Heq; [|discriminate Heq].
  apply (Kill_pid_files_differ "/tmp" Dirhash.unix_Join 4242 4243); [|exact Hsame].
  intros a b Ha Hb H. rewrite !unix_Join_tmp in H by done.
  by apply (inj (String.app "/tmp/")) in H.
Defined.

End Clients.

(** * Resources and the state *)

(** Package [random]. *)
Module Random.

Record RandomUUID : Type := {
  ID : string;
  Value : string
}.

End Random.

(** Package [resources]: Nomad jobs. *)
Module Nomad.

Record NomadJob : Type := {
  ID : string;
  File : string;
  Cluster : string;
  Paths : list string;
  JobChecksums : list string
}.

End Nomad.

(** Package [exec]: the resource. *)
Module ExecResource.

Record ContainerImage : Type := { ImageName : string }.
Record ExecTarget : Type := { ContainerName : string }.
Record Volume : Type := { Source : string; Destination : string }.
Record NetworkAttachment : Type := { NetworkName : string }.

Record Exec : Type := {
  ID : string;
  Name : string;
  File : string;
  Script : string;
  Daemon : bool;
  Image : option ContainerImage;
  Target : option ExecTarget;
  Networks : list NetworkAttachment;
  Volumes : list Volume;
  PID : Z
}.

End ExecResource.

(** The state of the previous run. *)
Module State.

Inductive Resource : Type :=
  | OfRandomUUID (r : Random.RandomUUID)
  | OfExec (e : ExecResource.Exec)
  | OfNomadJob (n : Nomad.NomadJob).

Definition resource_ID (r : Resource) : string :=
  match r with
  | OfRandomUUID r => Random.ID r
  | OfExec e => ExecResource.ID e
  | OfNomadJob n => Nomad.ID n
  end.

Record Config : Type := {
  Resources : list Resource
}.

(** Modelled from the spec: [FindResource] belongs to the configuration
    library and is not among the sources.  It looks a resource up by its
    id and reports that there is none (a nil resource, which is all the
    callers look at) when the state holds no record of it. *)
Definition FindResource (cfg : Config) (id : string) : option Resource :=
  List.find (fun r => String.eqb (resource_ID r) id) (Resources cfg).

(** The state when nothing has been run before. *)
Definition fresh_state : Config := {| Resources := [] |}.

End State.

(** ** The [Process] hooks *)

Module Hooks.

Import State.

Section Process.

(** What [config.LoadState()] returns during the call. *)
Variable LoadState : result Config.

(** [ensureAbsolute(path, file)] of package [resources] (and
    [utils.EnsureAbsolute]) is not among the sources. *)
Variable ensureAbsolute : string -> string -> string.

(** [RandomUUID.Process]; [Ok c] stands for a nil error with the
    receiver left as [c]. *)
Definition RandomUUID_Process (c : Random.RandomUUID) : result Random.RandomUUID :=
  match LoadState with
  | Ok cfg =>
      match FindResource cfg (Random.ID c) with
      | Some r =>
          match r with
          | OfRandomUUID state =>
              Ok {| Random.ID := Random.ID c; Random.Value := Random.Value state |}
          | _ => Panic "interface conversion: resource is not *RandomUUID"
          end
      | None => Ok c
      end
  | Err _ => Ok c
  | Panic msg => Panic msg
  end.

(** [NomadJob.Process]. *)
Definition NomadJob_Process (n : Nomad.NomadJob) : result Nomad.NomadJob :=
  let n := {| Nomad.ID := Nomad.ID n; Nomad.File := Nomad.File n;
              Nomad.Cluster := Nomad.Cluster n;
              Nomad.Paths := map (fun p => ensureAbsolute p (Nomad.File n)) (Nomad.Paths n);
              Nomad.JobChecksums := Nomad.JobChecksums n |} in
  match LoadState with
  | Ok cfg =>
      match FindResource cfg (Nomad.ID n) with
      | Some r =>
          match r with
          | OfNomadJob kstate =>
              Ok {| Nomad.ID := Nomad.ID n; Nomad.File := Nomad.File n;
                    Nomad.Cluster := Nomad.Cluster n;
                    Nomad.Paths := Nomad.Paths n;
                    Nomad.JobChecksums := Nomad.JobChecksums kstate |}
          | _ => Panic "interface conversion: resource is not *NomadJob"
          end
      | None => Ok n
      end
  | Err _ => Ok n
  | Panic msg => Panic msg
  end.

Import ExecResource.

Definition with_PID (e : Exec) (pid : Z) : Exec :=
  {| ID := ID e; Name := Name e; File := File e; Script := Script e;
     Daemon := Daemon e; Image := Image e; Target := Target e;
     Networks := Networks e; Volumes := Volumes e; PID := pid |}.

Definition with_Volumes (e : Exec) (vs : list Volume) : Exec :=
  {| ID := ID e; Name := Name e; File := File e; Script := Script e;
     Daemon := Daemon e; Image := Image e; Target := Target e;
     Networks := Networks e; Volumes := vs; PID := PID e |}.

(** An exec with neither an image nor a target runs on the host. *)
Definition is_local (e : Exec) : bool :=
  match Image e, Target e with
  | None, None => true
  | _, _ => false
  end.

(** A local exec can have neither networks nor volumes. *)
Definition rejected (e : Exec) : bool :=
  is_local e &&
  negb (Nat.eqb (length (Networks e)) 0 && Nat.eqb (length (Volumes e)) 0).

(** Modelled from the spec: [Exec.Process] is not among the sources;
    its tests are ([resource_test.go]).  The hook fails fast on a
    configuration that combines mutually exclusive options (a local exec
    with volumes or networks), makes the volume paths of the others
    absolute with respect to the declaring file, and takes the pid over
    from the record of the previous run, if there is one. *)
Definition Exec_Process (e : Exec) : result Exec :=
  if rejected e
  then Err (ErrorOf "unable to create local exec with networks or volumes")
  else
    let e :=
      if is_local e then e
      else with_Volumes e
             (map (fun v => {| Source := ensureAbsolute (Source v) (File e);
                               Destination := Destination v |}) (Volumes e)) in
    match LoadState with
    | Ok cfg =>
        match FindResource cfg (ID e) with
        | Some r =>
            match r with
            | OfExec kstate => Ok (with_PID e (PID kstate))
            | _ => Panic "interface conversion: resource is not *Exec"
            end
        | None => Ok e
        end
    | Err _ => Ok e
    | Panic msg => Panic msg
    end.

End Process.

(** ** Facts about the hooks *)

(** C9, as the hooks have it.  With the state loaded, a hook whose
    resource has a record (of its own kind) under its id returns without
    error with the output taken from the record: the [Value] of a
    [RandomUUID], the [JobChecksums] of a [NomadJob], the [PID] of an
    [Exec]; without a record it returns without error and the output is
    what it was.  For an [Exec] this holds when the configuration is not
    rejected: a local exec with networks or volumes gets an error
    whatever the state holds. *)
Theorem Process_takes_outputs_from_state (ensureAbsolute : string -> string -> string)
    (cfg : Config) :
  (forall c state,
     FindResource cfg (Random.ID c) = Some (OfRandomUUID state) ->
     exists c', RandomUUID_Process (Ok cfg) c = Ok c' /\
                Random.Value c' = Random.Value state) /\
  (forall c,
     FindResource cfg (Random.ID c) = None ->
     RandomUUID_Process (Ok cfg) c = Ok c) /\
  (forall n kstate,
     FindResource cfg (Nomad.ID n) = Some (OfNomadJob kstate) ->
     exists n', NomadJob_Process (Ok cfg) ensureAbsolute n = Ok n' /\
                Nomad.JobChecksums n' = Nomad.JobChecksums kstate) /\
  (forall n,
     FindResource cfg (Nomad.ID n) = None ->
     exists n', NomadJob_Process (Ok cfg) ensureAbsolute n = Ok n' /\
                Nomad.JobChecksums n' = Nomad.JobChecksums n) /\
  (forall e kstate,
     rejected e = false ->
     FindResource cfg (ExecResource.ID e) = Some (OfExec kstate) ->
     exists e', Exec_Process (Ok cfg) ensureAbsolute e = Ok e' /\
                ExecResource.PID e' = ExecResource.PID kstate) /\
  (forall e,
     rejected e = false ->
     FindResource cfg (ExecResource.ID e) = None ->
     exists e', Exec_Process (Ok cfg) ensureAbsolute e = Ok e' /\
                ExecResource.PID e' = ExecResource.PID e) /\
  (forall e,
     rejected e = true ->
     exists err, Exec_Process (Ok cfg) ensureAbsolute e = Err err).
Proof.
  repeat split.
  - intros c state H. unfold RandomUUID_Process. rewrite H. eauto.
  - intros c H. unfold RandomUUID_Process. by rewrite H.
  - intros n kstate H. unfold NomadJob_Process. cbn [Nomad.ID]. rewrite H. eauto.
  - intros n H. unfold NomadJob_Process. cbn [Nomad.ID]. rewrite H. eauto.
  - intros e kstate Hok H. unfold Exec_Process. rewrite Hok.
    destruct (is_local e); cbn [with_Volumes ExecResource.ID]; rewrite H; eauto.
  - intros e Hok H. unfold Exec_Process. rewrite Hok.
    destruct (is_local e); cbn [with_Volumes ExecResource.ID]; rewrite H; eauto.
  - intros e Hrej. unfold Exec_Process. rewrite Hrej. eauto.
Qed.

(** ** Instances *)

(** The state of [TestExecSetsOutputsFromState], with a generated value
    and the checksums of a job beside the exec. *)
Definition recorded : Config :=
  {| Resources :=
       [ OfExec {| ExecResource.ID := "resource.exec.test"; ExecResource.Name := "test";
                   ExecResource.File := ""; ExecResource.Script := "";
                   ExecResource.Daemon := false;
                   ExecResource.Image := None; ExecResource.Target := None;
                   ExecResource.Networks := []; ExecResource.Volumes := [];
                   ExecResource.PID := 42 |};
         OfRandomUUID {| Random.ID := "resource.random_uuid.id";
                         Random.Value := "0b1f5a4e-6f0c-4a4b-9c55-2f1d3c7a9e10" |};
         OfNomadJob {| Nomad.ID := "resource.nomad_job.web"; Nomad.File := "";
                       Nomad.Cluster := "dev"; Nomad.Paths := [];
                       Nomad.JobChecksums := ["h1:47DEQpj8HBSa+/TImW+5JCeuQeRkm5NMpJWZG3hSuFU="] |} ] |}.

(** A stand-in for [ensureAbsolute]: the path below the directory of the
    declaring file. *)
Definition below (path file : string) : string := file +:+ path.

Definition exec_of (id : string) (image : option ExecResource.ContainerImage)
    (volumes : list ExecResource.Volume) : ExecResource.Exec :=
  {| ExecResource.ID := id; ExecResource.Name := "test"; ExecResource.File := "./";
     ExecResource.Script := ""; ExecResource.Daemon := false;
     ExecResource.Image := image; ExecResource.Target := None;
     ExecResource.Networks := []; ExecResource.Volumes := volumes;
     ExecResource.PID := 0 |}.

Example TestExecSetsOutputsFromState :
  exists c, Exec_Process (Ok recorded) below (exec_of "resource.exec.test" None []) = Ok c /\
            ExecResource.PID c = 42%Z.
Proof. eexists. split; reflexivity. Qed.

Example TestExecLocalWithVolumesReturnsError :
  exists err,
    Exec_Process (Ok recorded) below
      (exec_of "" None [{| ExecResource.Source := "./"; ExecResource.Destination := "./" |}])
    = Err err.
Proof. eexists. reflexivity. Qed.

(** C9 fails as stated: with no record in the state, the hook of a local
    exec that declares a volume does not succeed. *)
Lemma Process_without_record_counterexample :
  let e := exec_of "resource.exec.local" None
             [{| ExecResource.Source := "./"; ExecResource.Destination := "./" |}] in
  FindResource fresh_state (ExecResource.ID e) = None /\
  Exec_Process (Ok fresh_state) below e =
  Err (ErrorOf "unable to create local exec with networks or volumes") /\
  ~ exists e', Exec_Process (Ok fresh_state) below e = Ok e'.
Proof. repeat split. intros [e' H]. discriminate. Qed.

Lemma Process_takes_outputs_from_state_witness :
  (exists c', RandomUUID_Process (Ok recorded)
                {| Random.ID := "resource.random_uuid.id"; Random.Value := "" |} = Ok c' /\
              Random.Value c' = "0b1f5a4e-6f0c-4a4b-9c55-2f1d3c7a9e10") /\
  (exists e', Exec_Process (Ok recorded) below (exec_of "resource.exec.test" None []) = Ok e' /\
              ExecResource.PID e' = 42%Z) /\
  (exists e', Exec_Process (Ok recorded) below (exec_of "resource.exec.other" None []) = Ok e' /\
              ExecResource.PID e' = 0%Z).
Proof.
  pose proof (Process_takes_outputs_from_state below recorded)
    as (Huuid & _ & _ & _ & Hexec & Hnone & _).
  split; [|split].
  - exact (Huuid {| Random.ID := "resource.random_uuid.id"; Random.Value := "" |} _ eq_refl).
  - exact (Hexec (exec_of "resource.exec.test" None []) _ eq_refl eq_refl).
  - exact (Hnone (exec_of "resource.exec.other" None []) eq_refl eq_refl).
Defined.


(** ** More on the hooks: no error, nothing else touched, and running twice *)

(** [RandomUUID.Process] and [NomadJob.Process] never return an error: a
    state that cannot be loaded, and a state that loads but holds no
    record under the id of the resource, both leave the outputs as they
    are.  Whenever they return, the id of the resource is what it was; a
    [RandomUUID] differs from what it was in its [Value] at most, and a
    [NomadJob] has each of its paths made absolute, in place, and its
    file and cluster untouched. *)
Theorem Process_never_fails (LoadState : result Config)
    (ensureAbsolute : string -> string -> string)
    (c : Random.RandomUUID) (n : Nomad.NomadJob) :
  (forall e, RandomUUID_Process LoadState c <> Err e) /\
  (forall e, NomadJob_Process LoadState ensureAbsolute n <> Err e) /\
  (forall c', RandomUUID_Process LoadState c = Ok c' -> Random.ID c' = Random.ID c) /\
  (forall n', NomadJob_Process LoadState ensureAbsolute n = Ok n' ->
     Nomad.ID n' = Nomad.ID n /\ Nomad.File n' = Nomad.File n /\
     Nomad.Cluster n' = Nomad.Cluster n /\
     Nomad.Paths n' = map (fun p => ensureAbsolute p (Nomad.File n)) (Nomad.Paths n)) /\
  (forall e, LoadState = Err e ->
     RandomUUID_Process LoadState c = Ok c /\
     exists n', NomadJob_Process LoadState ensureAbsolute n = Ok n' /\
                Nomad.JobChecksums n' = Nomad.JobChecksums n) /\
  (forall cfg, LoadState = Ok cfg ->
     (FindResource cfg (Random.ID c) = None -> RandomUUID_Process LoadState c = Ok c) /\
     (FindResource cfg (Nomad.ID n) = None ->
      exists n', NomadJob_Process LoadState ensureAbsolute n = Ok n' /\
                 Nomad.JobChecksums n' = Nomad.JobChecksums n)).
Proof.
  split; [|split; [|split; [|split; [|split]]]].
  - intros e. unfold RandomUUID_Process.
    destruct LoadState as [cfg|e0|m]; [|done..].
    by destruct (FindResource cfg (Random.ID c)) as [[| |]|].
  - intros e. unfold NomadJob_Process. cbn [Nomad.ID].
    destruct LoadState as [cfg|e0|m]; [|done..].
    by destruct (FindResource cfg (Nomad.ID n)) as [[| |]|].
  - intros c' H. unfold RandomUUID_Process in H.
    destruct LoadState as [cfg|e0|m]; [|by injection H as <-|done].
    destruct (FindResource cfg (Random.ID c)) as [[| |]|]; try done;
      by injection H as <-.
  - intros n' H. unfold NomadJob_Process in H. cbn [Nomad.ID] in H.
    destruct LoadState as [cfg|e0|m]; [|by injection H as <-|done].
    destruct (FindResource cfg (Nomad.ID n)) as [[| |]|]; try done;
      by injection H as <-.
  - intros e ->. split; [done|]. cbn. eauto.
  - intros cfg ->. split; intros Hnone.
    + unfold RandomUUID_Process. by rewrite Hnone.
    + unfold NomadJob_Process. cbn [Nomad.ID]. rewrite Hnone. eauto.
Qed.

(** Running [RandomUUID.Process] again on what it has left changes
    nothing. *)
Theorem RandomUUID_Process_twice (LoadState : result Config) (c c' : Random.RandomUUID) :
  RandomUUID_Process LoadState c = Ok c' ->
  RandomUUID_Process LoadState c' = Ok c'.
Proof.
  unfold RandomUUID_Process.
  destruct LoadState as [cfg|e|m]; [|by intros [= <-]|done].
  destruct (FindResource cfg (Random.ID c)) as [[st| |]|] eqn:E; try done.
  - intros [= <-]. cbn [Random.ID]. by rewrite E.
  - intros [= <-]. by rewrite E.
Qed.

(** Running [NomadJob.Process] again changes nothing either, provided
    that making an absolute path absolute gives the same path. *)
Theorem NomadJob_Process_twice (LoadState : result Config)
    (ensureAbsolute : string -> string -> string) (n n' : Nomad.NomadJob) :
  (forall p file, ensureAbsolute (ensureAbsolute p file) file = ensureAbsolute p file) ->
  NomadJob_Process LoadState ensureAbsolute n = Ok n' ->
  NomadJob_Process LoadState ensureAbsolute n' = Ok n'.
Proof.
  intros Hidem. unfold NomadJob_Process. cbn [Nomad.ID].
  assert (Hpaths : forall l file,
            map (fun p => ensureAbsolute p file) (map (fun p => ensureAbsolute p file) l) =
            map (fun p => ensureAbsolute p file) l).
  { intros l file. rewrite map_map. apply map_ext. intros p. apply Hidem. }
  destruct LoadState as [cfg|e|m]; [| |done].
  - destruct (FindResource cfg (Nomad.ID n)) as [[| |st]|] eqn:E; try done.
    + intros [= <-]. cbn. rewrite E. by rewrite Hpaths.
    + intros [= <-]. cbn. rewrite E. by rewrite Hpaths.
  - intros [= <-]. cbn. by rewrite Hpaths.
Qed.

Lemma RandomUUID_Process_twice_witness :
  RandomUUID_Process (Ok recorded)
    {| Random.ID := "resource.random_uuid.id";
       Random.Value := "0b1f5a4e-6f0c-4a4b-9c55-2f1d3c7a9e10" |} =
  Ok {| Random.ID := "resource.random_uuid.id";
        Random.Value := "0b1f5a4e-6f0c-4a4b-9c55-2f1d3c7a9e10" |}.
Proof.
  apply (RandomUUID_Process_twice (Ok recorded)
           {| Random.ID := "resource.random_uuid.id"; Random.Value := "" |}).
  reflexivity.
Defined.

(** A stand-in for [ensureAbsolute] that leaves absolute paths alone. *)
Definition rooted (path file : string) : string :=
  if strings_HasPrefix path "/" then path else "/work/" +:+ path.

Lemma NomadJob_Process_twice_witness :
  NomadJob_Process (Ok recorded) rooted
    {| Nomad.ID := "resource.nomad_job.web"; Nomad.File := "/work/main.hcl";
       Nomad.Cluster := "dev"; Nomad.Paths := ["/work/jobs/web.nomad"];
       Nomad.JobChecksums := ["h1:47DEQpj8HBSa+/TImW+5JCeuQeRkm5NMpJWZG3hSuFU="] |} =
  Ok {| Nomad.ID := "resource.nomad_job.web"; Nomad.File := "/work/main.hcl";
        Nomad.Cluster := "dev"; Nomad.Paths := ["/work/jobs/web.nomad"];
        Nomad.JobChecksums := ["h1:47DEQpj8HBSa+/TImW+5JCeuQeRkm5NMpJWZG3hSuFU="] |}.
Proof.
  apply (NomadJob_Process_twice (Ok recorded) rooted
           {| Nomad.ID := "resource.nomad_job.web"; Nomad.File := "/work/main.hcl";
              Nomad.Cluster := "dev"; Nomad.Paths := ["jobs/web.nomad"];
              Nomad.JobChecksums := [] |}).
  - intros p file. unfold rooted.
    destruct (strings_HasPrefix p "/") eqn:E; [by rewrite E|reflexivity].
  - reflexivity.
Defined.

End Hooks.

(** * Package exec: the provider *)

Module ExecProvider.

Import ExecResource.

(** The command client the provider holds; [Kill] gives the error of
    killing a pid, if any. *)
Record Command : Type := {
  Kill : Z -> option error
}.

Record Provider : Type := {
  config : Exec;
  command : Command
}.

(** What a provider operation does besides returning. *)
Inductive Effect : Type :=
  | LogDebug (msg : string)
  | LogWarn (msg : string)
  | CallKill (pid : Z).

Definition Destroy (p : Provider) : option error * list Effect :=
  if Daemon (config p) && bool_decide (Image (config p) = None)
       && bool_decide (Target (config p) = None)
  then
    if (PID (config p) <? 1)%Z
    then (None, [LogWarn "unable to stop local process, no pid"])
    else
      match Kill (command p) (PID (config p)) with
      | Some _ =>
          (None, [CallKill (PID (config p));
                  LogWarn "error cleaning up daemonized process"])
      | None => (None, [CallKill (PID (config p))])
      end
  else (None, []).

Definition Changed (p : Provider) : (bool * option error) * list Effect :=
  ((false, None), [LogDebug "checking changes"]).

(** The resource is a daemon that runs on the host: the one case in
    which [Destroy] has a process to stop. *)
Definition local_daemon (e : Exec) : Prop :=
  Daemon e = true /\ Image e = None /\ Target e = None.

Lemma local_daemon_guard (e : Exec) :
  Daemon e && bool_decide (Image e = None) && bool_decide (Target e = None) = true
  <-> local_daemon e.
Proof.
  unfold local_daemon.
  rewrite !andb_true_iff, !bool_decide_eq_true. tauto.
Qed.

(** C8, as the code has it.  [Destroy] returns a nil error in every
    case.  For a daemon on the host with a pid below one it warns and
    kills nothing; with a pid it calls [Kill], and warns when [Kill]
    fails.  For any other resource (not a daemon, or run in a container)
    it does nothing at all, so no warning comes with a missing pid. *)
Theorem Destroy_returns_nil (p : Provider) :
  (Destroy p).1 = None /\
  (local_daemon (config p) -> (PID (config p) < 1)%Z ->
   (Destroy p).2 = [LogWarn "unable to stop local process, no pid"]) /\
  (local_daemon (config p) -> (1 <= PID (config p))%Z ->
   forall e, Kill (command p) (PID (config p)) = Some e ->
   (Destroy p).2 = [CallKill (PID (config p));
                    LogWarn "error cleaning up daemonized process"]) /\
  (local_daemon (config p) -> (1 <= PID (config p))%Z ->
   Kill (command p) (PID (config p)) = None ->
   (Destroy p).2 = [CallKill (PID (config p))]) /\
  (~ local_daemon (config p) -> (Destroy p).2 = []).
Proof.
  unfold Destroy.
  destruct (Daemon (config p) && _ && _) eqn:Hguard.
  - apply local_daemon_guard in Hguard.
    destruct (PID (config p) <? 1)%Z eqn:Hpid.
    + apply Z.ltb_lt in Hpid. repeat split; try done; intros; lia.
    + apply Z.ltb_ge in Hpid.
      destruct (Kill (command p) (PID (config p))) eqn:Hkill;
        repeat split; try done; intros; lia.
  - assert (~ local_daemon (config p)) as Hno.
    { intros H. apply local_daemon_guard in H. congruence. }
    repeat split; try done; intros; done.
Qed.

(** C2, as the code has it.  [Changed] consults nothing: it logs a debug
    line and reports no change and no error, for every resource and
    whatever the state holds. *)
Theorem Changed_reports_false (p : Provider) :
  Changed p = ((false, None), [LogDebug "checking changes"]).
Proof. reflexivity. Qed.

(** ** Instances *)

Definition killer (outcome : option error) : Command := {| Kill := fun _ => outcome |}.

Definition exec_with (daemon : bool) (pid : Z) : Exec :=
  {| ID := "resource.exec.test"; Name := "test"; File := "./"; Script := "sleep 60";
     Daemon := daemon; Image := None; Target := None;
     Networks := []; Volumes := []; PID := pid |}.

(** C2 fails as stated: before any run the state has no record of the
    resource, and [Changed] reports no change. *)
Lemma Changed_first_run_counterexample :
  let p := {| config := exec_with false 0; command := killer None |} in
  State.FindResource State.fresh_state (ID (config p)) = None /\
  (Changed p).1 = (false, None) /\
  (Changed p).1.1 <> true.
Proof. repeat split. discriminate. Qed.

(** C8 fails as stated: an exec that is not a daemon has no pid
    recorded that [Destroy] would miss, and [Destroy] returns without a
    warning. *)
Lemma Destroy_no_pid_counterexample :
  let p := {| config := exec_with false 0; command := killer None |} in
  PID (config p) = 0%Z /\
  Destroy p = (None, []) /\
  forall msg, LogWarn msg ∉ (Destroy p).2.
Proof.
  repeat split. intros msg H. by apply elem_of_nil in H.
Qed.

Lemma Destroy_returns_nil_witness :
  (Destroy {| config := exec_with true 0; command := killer None |}).2 =
    [LogWarn "unable to stop local process, no pid"] /\
  (Destroy {| config := exec_with true 4242;
              command := killer (Some (ErrorOf "no such process")) |}).2 =
    [CallKill 4242; LogWarn "error cleaning up daemonized process"] /\
  (Destroy {| config := exec_with true 4242;
              command := killer (Some (ErrorOf "no such process")) |}).1 = None.
Proof.
  split; [|split].
  - apply (proj1 (proj2 (Destroy_returns_nil
                           {| config := exec_with true 0; command := killer None |}))).
    + done.
    + done.
  - apply (proj1 (proj2 (proj2 (Destroy_returns_nil
                           {| config := exec_with true 4242;
                              command := killer (Some (ErrorOf "no such process")) |})))
             ) with (e := ErrorOf "no such process").
    + done.
    + done.
    + done.
  - apply (proj1 (Destroy_returns_nil
                    {| config := exec_with true 4242;
                       command := killer (Some (ErrorOf "no such process")) |})).
Defined.


End ExecProvider.

(** * Package exec: creating the resource *)

(** [Provider.Create] and the functions it calls.  They read more of
    the resource than [Destroy] does, and they talk to the container
    client and to the command client; the resource is given here with
    every field they read, and the clients by what they answer. *)
Module ExecCreate.

(** The image, network and volume types.  The resource and the
    container client each declare their own, with the fields below; one
    record stands for both, and the copies the code makes field by
    field are written out as such. *)
Module ImageT.
Record t : Type := { Name : string; Username : string; Password : string }.
End ImageT.

Module NetworkT.
Record t : Type := {
  ID : string; Name : string; IPAddress : string; Aliases : list string
}.
End NetworkT.

Module VolumeT.
Record t : Type := {
  Source : string; Destination : string; Type_ : string; ReadOnly : bool;
  BindPropagation : string; BindPropagationNonRecursive : bool;
  SelinuxRelabel : string
}.
End VolumeT.

(** [contTypes.Container], as far as it is filled in. *)
Module ContainerT.
Record t : Type := {
  Name : string;
  Image : ImageT.t;
  Environment : list (string * string);
  Networks : list NetworkT.t;
  Volumes : list VolumeT.t;
  Entrypoint : list string;
  Command : list string
}.
End ContainerT.

Record TargetT : Type := { ContainerName : string }.
Record RunAsT : Type := { User : string; Group : string }.

(** The resource.  [Environment] is a Go map; it is given as the pairs
    in the order in which the one [range] over it yields them. *)
Record Exec : Type := {
  ID : string;
  Name : string;
  Module_ : string;
  Type_ : string;
  Script : string;
  WorkingDirectory : string;
  Daemon : bool;
  Timeout : string;
  Environment : list (string * string);
  Image : option ImageT.t;
  Target : option TargetT;
  Networks : list NetworkT.t;
  Volumes : list VolumeT.t;
  RunAs : option RunAsT;
  PID : Z
}.

(** [cmdTypes.CommandConfig], with the fields [createLocalExec] sets. *)
Module CommandConfigT.
Record t : Type := {
  Command : string;
  Env : list string;
  WorkingDirectory : string;
  RunInBackground : bool;
  LogFilePath : string;
  Timeout : Z
}.
End CommandConfigT.

(** The container client. *)
Record ContainerTasks : Type := {
  FindContainerIDs : string -> result (list string);
  ExecuteScript : string -> string -> list string -> string -> string -> string -> Z
                  -> option error;
  RemoveContainer : string -> bool -> option error;
  PullImage : ImageT.t -> bool -> option error;
  CreateContainer : ContainerT.t -> result string
}.

(** The command client. *)
Record Command : Type := {
  Execute : CommandConfigT.t -> Z * option error
}.

Record Provider : Type := {
  config : Exec;
  container : ContainerTasks;
  command : Command
}.

(** What an operation does besides returning, in order. *)
Inductive Event : Type :=
  | EvLog (level msg : string)
  | EvFindContainerIDs (name : string)
  | EvPullImage (image : ImageT.t) (force : bool)
  | EvCreateContainer (c : ContainerT.t)
  | EvExecuteScript (id script : string) (envs : list string)
      (workingDirectory user group : string) (timeout : Z)
  | EvRemoveContainer (id : string) (force : bool)
  | EvWriteFile (name contents : string) (perm : Z)
  | EvExecute (cc : CommandConfigT.t).

(** An operation: its outcome and what it did. *)
Definition M (A : Type) : Type := result A * list Event.

Definition ret {A} (a : A) : M A := (Ok a, []).
Definition fail {A} (e : error) : M A := (Err e, []).
Definition emit (ev : Event) : M unit := (Ok tt, [ev]).

Definition bindM {A B} (m : M A) (k : A -> M B) : M B :=
  match m with
  | (Ok a, done) => let '(r, more) := k a in (r, done ++ more)
  | (Err e, done) => (Err e, done)
  | (Panic msg, done) => (Panic msg, done)
  end.

Notation "'let!' x := m 'in' k" := (bindM m (fun x => k))
  (at level 10, x pattern, m at level 100, k at level 200).

(** The text of an error, for [%s] and [%w]. *)
Definition error_message (e : error) : string :=
  match e with
  | ErrorCommandTimeout => "Command timed out before completing"
  | ErrorOf msg => msg
  end.

(** [fmt.Errorf(prefix + "%w", err)] and [fmt.Errorf(prefix + "%s", err)]:
    the new error is given by its text; that the first one wraps [err]
    is not kept. *)
Definition Errorf (prefix : string) (err : error) : error :=
  ErrorOf (prefix +:+ error_message err).

(** [strings.Replace(s, "\r\n", "\n", -1)]. *)
Fixpoint replace_crlf (s : string) : string :=
  match s with
  | EmptyString => EmptyString
  | String c rest =>
      match rest with
      | String c' rest' =>
          if Ascii.eqb c (ascii_of_nat 13) && Ascii.eqb c' (ascii_of_nat 10)
          then String (ascii_of_nat 10) (replace_crlf rest')
          else String c (replace_crlf rest)
      | EmptyString => String c EmptyString
      end
  end.

(** The environment entries: [fmt.Sprintf("%s=%s", k, v)] for each pair. *)
Definition environment_entries (env : list (string * string)) : list string :=
  map (fun '(k, v) => k +:+ "=" +:+ v) env.

Section Create.

(** What lies outside the repository: [utils.FQDN], [utils.JumppadTemp],
    [utils.LogsDir], [filepath.Join], [runtime.GOOS], [os.WriteFile]
    and [time.ParseDuration]. *)
Variable utils_FQDN : string -> string -> string -> string.
Variable utils_JumppadTemp : string.
Variable utils_LogsDir : string.
Variable filepath_Join : string -> string -> string.
Variable runtime_GOOS : string.
Variable os_WriteFile : string -> string -> Z -> option error.
Variable time_ParseDuration : string -> result Z.

(** The container [createRemoteExecContainer] asks for: the composite
    literal, the two loops that append the networks and the volumes, and
    the entrypoint and command set after them. *)
Definition new_container (c : Exec) (image : ImageT.t) : ContainerT.t :=
  let fqdn := utils_FQDN (Name c) (Module_ c) (Type_ c) in
  {| ContainerT.Name := fqdn;
     ContainerT.Image := {| ImageT.Name := ImageT.Name image;
                            ImageT.Username := ImageT.Username image;
                            ImageT.Password := ImageT.Password image |};
     ContainerT.Environment := Environment c;
     ContainerT.Networks :=
       map (fun v => {| NetworkT.ID := NetworkT.ID v;
                        NetworkT.Name := NetworkT.Name v;
                        NetworkT.IPAddress := NetworkT.IPAddress v;
                        NetworkT.Aliases := NetworkT.Aliases v |}) (Networks c);
     ContainerT.Volumes :=
       map (fun v => {| VolumeT.Source := VolumeT.Source v;
                        VolumeT.Destination := VolumeT.Destination v;
                        VolumeT.Type_ := VolumeT.Type_ v;
                        VolumeT.ReadOnly := VolumeT.ReadOnly v;
                        VolumeT.BindPropagation := VolumeT.BindPropagation v;
                        VolumeT.BindPropagationNonRecursive :=
                          VolumeT.BindPropagationNonRecursive v;
                        VolumeT.SelinuxRelabel := VolumeT.SelinuxRelabel v |})
           (Volumes c);
     ContainerT.Entrypoint := [];
     ContainerT.Command := ["tail"; "-f"; "/dev/null"] |}.

Definition createRemoteExecContainer (p : Provider) : M string :=
  let c := config p in
  match Image c with
  | None => (Panic "invalid memory address or nil pointer dereference", [])
  | Some image =>
      let new := new_container c image in
      let! _ := emit (EvPullImage (ContainerT.Image new) false) in
      match PullImage (container p) (ContainerT.Image new) false with
      | Some err =>
          let! _ := emit (EvLog "error" "error pulling container image") in
          fail err
      | None =>
          let! _ := emit (EvCreateContainer new) in
          match CreateContainer (container p) new with
          | Ok id => ret id
          | Err err =>
              let! _ := emit (EvLog "error" "error creating container for remote exec") in
              fail err
          | Panic msg => (Panic msg, [])
          end
      end
  end.

Definition createRemoteExec (p : Provider) : M unit :=
  let c := config p in
  let! targetID :=
    match Target c with
    | None =>
        match createRemoteExecContainer p with
        | (Ok id, done) => (Ok id, done)
        | (Err err, done) =>
            (Err (Errorf ("unable to create container for exec." +:+ Name c +:+ ": ") err),
             done)
        | (Panic msg, done) => (Panic msg, done)
        end
    | Some target =>
        let! _ := emit (EvFindContainerIDs (ContainerName target)) in
        match FindContainerIDs (container p) (ContainerName target) with
        | Err err => fail (Errorf "unable to find exec target: " err)
        | Panic msg => (Panic msg, [])
        | Ok ids =>
            match ids with
            | [id] => ret id
            | _ => fail (ErrorOf ("unable to find exec target " +:+ ContainerName target))
            end
        end
    end in
  let script := Script c in
  let envs := environment_entries (Environment c) in
  let '(user, group) :=
    match RunAs c with
    | Some r => (User r, Group r)
    | None => ("", "")
    end in
  let! _ := emit (EvExecuteScript targetID script envs (WorkingDirectory c) user group 300) in
  match ExecuteScript (container p) targetID script envs (WorkingDirectory c) user group 300 with
  | Some err =>
      let! _ := emit (EvLog "error" "error executing command") in
      fail (Errorf "unable to execute command: in remote container: " err)
  | None =>
      match Target c with
      | None =>
          let! _ := emit (EvRemoveContainer targetID true) in
          ret tt
      | Some _ => ret tt
      end
  end.

Definition createLocalExec (p : Provider) : M Z :=
  let c := config p in
  let contents := Script c in
  let contents :=
    if String.eqb runtime_GOOS "windows" then contents else replace_crlf contents in
  let scriptPath := filepath_Join utils_JumppadTemp ("exec_" +:+ Name c +:+ ".sh") in
  let! _ := emit (EvWriteFile scriptPath contents 493) in
  match os_WriteFile scriptPath contents 493 with
  | Some err => fail (Errorf "unable to write script to file: " err)
  | None =>
      let envs := environment_entries (Environment c) in
      let logPath := filepath_Join utils_LogsDir ("exec_" +:+ Name c +:+ ".log") in
      let! d :=
        if String.eqb (Timeout c) "" then ret 0%Z
        else
          match time_ParseDuration (Timeout c) with
          | Err err => fail (Errorf "unable to parse duration for timeout: " err)
          | Panic msg => (Panic msg, [])
          | Ok d =>
              if Daemon c
              then let! _ := emit (EvLog "warn"
                                     "timeout will be ignored when exec is running in daemon mode") in
                   ret d
              else ret d
          end in
      let cc := {| CommandConfigT.Command := scriptPath;
                   CommandConfigT.Env := envs;
                   CommandConfigT.WorkingDirectory := WorkingDirectory c;
                   CommandConfigT.RunInBackground := Daemon c;
                   CommandConfigT.LogFilePath := logPath;
                   CommandConfigT.Timeout := d |} in
      let! _ := emit (EvExecute cc) in
      match Execute (command p) cc with
      | (_, Some err) => fail err
      | (pid, None) => ret pid
      end
  end.

Definition with_PID (c : Exec) (pid : Z) : Exec :=
  {| ID := ID c; Name := Name c; Module_ := Module_ c; Type_ := Type_ c;
     Script := Script c; WorkingDirectory := WorkingDirectory c; Daemon := Daemon c;
     Timeout := Timeout c; Environment := Environment c; Image := Image c;
     Target := Target c; Networks := Networks c; Volumes := Volumes c;
     RunAs := RunAs c; PID := pid |}.

(** The exec runs in a container: it names an image or a target. *)
Definition is_remote (c : Exec) : bool :=
  match Image c, Target c with
  | None, None => false
  | _, _ => true
  end.

(** [Create].  [Ok c] stands for a nil error with the resource left as
    [c]; when an error is returned the resource is as it was. *)
Definition Create (p : Provider) : M Exec :=
  let! _ := emit (EvLog "info" "executing script") in
  if is_remote (config p) then
    match createRemoteExec p with
    | (Ok _, done) => (Ok (config p), done)
    | (Err err, done) => (Err (Errorf "unable to create remote exec: " err), done)
    | (Panic msg, done) => (Panic msg, done)
    end
  else
    match createLocalExec p with
    | (Ok pid, done) => (Ok (with_PID (config p) pid), done)
    | (Err err, done) => (Err (Errorf "unable to create local exec: " err), done)
    | (Panic msg, done) => (Panic msg, done)
    end.

(** [Lookup] and [Refresh]. *)
Definition Lookup (p : Provider) : M (list string) := ret [].

Definition Refresh (p : Provider) : M unit :=
  let! _ := emit (EvLog "debug" "refresh Exec") in ret tt.

(** ** Facts about [Create] *)

(** Calls that pull an image, or create or remove a container. *)
Definition manages_containers (ev : Event) : bool :=
  match ev with
  | EvPullImage _ _ | EvCreateContainer _ | EvRemoveContainer _ _ => true
  | _ => false
  end.

(** Calls to the container client. *)
Definition container_call (ev : Event) : bool :=
  match ev with
  | EvFindContainerIDs _ | EvPullImage _ _ | EvCreateContainer _
  | EvExecuteScript _ _ _ _ _ _ _ | EvRemoveContainer _ _ => true
  | _ => false
  end.

(** Calls that touch the host: writing the script and running it. *)
Definition host_call (ev : Event) : bool :=
  match ev with
  | EvWriteFile _ _ _ | EvExecute _ => true
  | _ => false
  end.

(** The user and group a script runs as. *)
Definition run_as (c : Exec) : string * string :=
  match RunAs c with
  | Some r => (User r, Group r)
  | None => ("", "")
  end.

(** Splits every [match] of the goal on what it examines. *)
Ltac split_cases :=
  repeat (match goal with
          | |- context [match ?x with _ => _ end] =>
              lazymatch x with
              | context [match _ with _ => _ end] => fail
              | _ => destruct x eqn:?
              end
          end; cbn).

Ltac run_M := unfold bindM, emit, ret, fail; cbn.

(** Against a target, [createRemoteExec] pulls no image and creates and
    removes no container.  It needs exactly one container of the
    target's name: with none or with several it returns "unable to find
    exec target" after the lookup and runs nothing; and the script is run
    in no container but the one that was found. *)
Theorem createRemoteExec_on_target (p : Provider) (target : TargetT) :
  Target (config p) = Some target ->
  Forall (fun ev => manages_containers ev = false) (createRemoteExec p).2 /\
  (forall ids,
     FindContainerIDs (container p) (ContainerName target) = Ok ids ->
     length ids <> 1 ->
     createRemoteExec p =
     (Err (ErrorOf ("unable to find exec target " +:+ ContainerName target)),
      [EvFindContainerIDs (ContainerName target)])) /\
  (forall id script envs wd user group t,
     EvExecuteScript id script envs wd user group t ∈ (createRemoteExec p).2 ->
     FindContainerIDs (container p) (ContainerName target) = Ok [id]).
Proof.
  intros Htarget. unfold createRemoteExec. rewrite Htarget.
  split; [|split].
  - run_M.
    destruct (FindContainerIDs (container p) (ContainerName target)) as [[|id0 [|id1 ids]]|e|m];
      cbn; try (by repeat constructor).
    destruct (RunAs (config p)); cbn.
    all: destruct (ExecuteScript _ _ _ _ _ _ _ _); cbn; by repeat constructor.
  - intros ids Hids Hlen. run_M. rewrite Hids.
    destruct ids as [|id [|id' ids]]; [done|cbn in Hlen; lia|done].
  - intros id script envs wd user group t. run_M.
    destruct (FindContainerIDs (container p) (ContainerName target)) as [[|id0 [|id1 ids]]|e|m];
      cbn.
    all: try (intros H; repeat (apply elem_of_cons in H as [H|H]; [discriminate|]);
              by apply elem_of_nil in H).
    destruct (RunAs (config p)); cbn.
    all: destruct (ExecuteScript _ _ _ _ _ _ _ _); cbn.
    all: intros H; repeat (apply elem_of_cons in H as [H|H];
                           [first [discriminate|by injection H as -> _]|]).
    all: by apply elem_of_nil in H.
Qed.

(** With an image and no target, [createRemoteExec] pulls the image,
    creates the container and runs the script in it.  When the script
    succeeds, the container is removed, by force, as the last step; when
    the script fails, the error is returned and the container that was
    created for the script is left where it is. *)
Theorem createRemoteExec_with_image (p : Provider) (image : ImageT.t) (id : string) :
  let c := config p in
  let new := new_container c image in
  let run := EvExecuteScript id (Script c) (environment_entries (Environment c))
               (WorkingDirectory c) (run_as c).1 (run_as c).2 300 in
  Target c = None ->
  Image c = Some image ->
  PullImage (container p) (ContainerT.Image new) false = None ->
  CreateContainer (container p) new = Ok id ->
  createRemoteExec p =
  match ExecuteScript (container p) id (Script c) (environment_entries (Environment c))
          (WorkingDirectory c) (run_as c).1 (run_as c).2 300 with
  | None =>
      (Ok tt, [EvPullImage (ContainerT.Image new) false; EvCreateContainer new; run;
               EvRemoveContainer id true])
  | Some err =>
      (Err (Errorf "unable to execute command: in remote container: " err),
       [EvPullImage (ContainerT.Image new) false; EvCreateContainer new; run;
        EvLog "error" "error executing command"])
  end.
Proof.
  intros c new run Htarget Himage Hpull Hcreate. subst c new run.
  unfold createRemoteExec, createRemoteExecContainer, run_as.
  rewrite Htarget, Himage. cbv zeta.
  unfold bindM at 2. unfold emit at 1. cbv iota beta.
  rewrite Hpull.
  unfold bindM at 2. unfold emit at 1. cbv iota beta.
  rewrite Hcreate. unfold ret at 1.
  unfold bindM, emit, ret, fail.
  destruct (RunAs (config p)); cbv iota beta;
    by destruct (ExecuteScript _ _ _ _ _ _ _ _).
Qed.

(** A container is removed only by [createRemoteExec] without a target,
    only by force, and only when the script has succeeded. *)
Theorem createRemoteExec_removes_on_success (p : Provider) (id : string) (force : bool) :
  EvRemoveContainer id force ∈ (createRemoteExec p).2 ->
  (createRemoteExec p).1 = Ok tt /\ force = true /\ Target (config p) = None /\
  exists new, EvCreateContainer new ∈ (createRemoteExec p).2 /\
              CreateContainer (container p) new = Ok id.
Proof.
  unfold createRemoteExec, createRemoteExecContainer.
  destruct (Target (config p)) as [target|] eqn:Htarget.
  - run_M.
    destruct (FindContainerIDs _ _) as [[|id0 [|id1 ids]]|e|m]; cbn.
    all: try (intros H; repeat (apply elem_of_cons in H as [H|H]; [discriminate|]);
              by apply elem_of_nil in H).
    destruct (RunAs (config p)); cbn.
    all: destruct (ExecuteScript _ _ _ _ _ _ _ _); cbn.
    all: intros H; repeat (apply elem_of_cons in H as [H|H]; [discriminate|]).
    all: by apply elem_of_nil in H.
  - destruct (Image (config p)) as [image|]; run_M.
    2:{ intros H. by apply elem_of_nil in H. }
    destruct (PullImage _ _ _); cbn.
    { intros H; repeat (apply elem_of_cons in H as [H|H]; [discriminate|]).
      by apply elem_of_nil in H. }
    destruct (CreateContainer _ _) as [id0|e|m] eqn:Hcreate; cbn.
    2,3: intros H; repeat (apply elem_of_cons in H as [H|H]; [discriminate|]);
         by apply elem_of_nil in H.
    destruct (RunAs (config p)); cbn.
    all: destruct (ExecuteScript _ _ _ _ _ _ _ _); cbn.
    all: intros H; repeat (apply elem_of_cons in H as [H|H];
                           [first [discriminate|injection H as -> ->]|]).
    all: try by apply elem_of_nil in H.
    all: repeat split; try done.
    all: eexists; split; [|exact Hcreate]; right; by left.
Qed.

Lemma createRemoteExec_no_host_call (p : Provider) :
  Forall (fun ev => host_call ev = false) (createRemoteExec p).2.
Proof.
  unfold createRemoteExec, createRemoteExecContainer. run_M.
  split_cases; by repeat constructor.
Qed.

Lemma createLocalExec_no_container_call (p : Provider) :
  Forall (fun ev => container_call ev = false) (createLocalExec p).2.
Proof.
  unfold createLocalExec. run_M.
  split_cases; by repeat constructor.
Qed.

(** [Create] keeps the two kinds of exec apart: for an exec with an
    image or a target it writes no script and runs no command on the
    host, and for a local exec it makes no call to the container
    client. *)
Theorem Create_keeps_apart (p : Provider) :
  Forall (fun ev => if is_remote (config p) then host_call ev = false
                    else container_call ev = false) (Create p).2.
Proof.
  unfold Create.
  destruct (is_remote (config p)).
  - pose proof (createRemoteExec_no_host_call p) as H.
    destruct (createRemoteExec p) as [[| |] tr]; run_M; by constructor.
  - pose proof (createLocalExec_no_container_call p) as H.
    destruct (createLocalExec p) as [[| |] tr]; run_M; by constructor.
Qed.

(** What [createLocalExec] runs, if it runs anything: the script it has
    just written without error, in the background exactly when the exec
    is a daemon, with one entry [k=v] for each pair of the environment,
    and with the timeout that was parsed (zero when none is given), a
    daemon included. *)
Theorem createLocalExec_runs (p : Provider) (cc : CommandConfigT.t) :
  let c := config p in
  let scriptPath := filepath_Join utils_JumppadTemp ("exec_" +:+ Name c +:+ ".sh") in
  EvExecute cc ∈ (createLocalExec p).2 ->
  (exists contents rest,
     (createLocalExec p).2 = EvWriteFile scriptPath contents 493 :: rest /\
     os_WriteFile scriptPath contents 493 = None) /\
  (Timeout c = "" /\ CommandConfigT.Timeout cc = 0%Z \/
   Timeout c <> "" /\ time_ParseDuration (Timeout c) = Ok (CommandConfigT.Timeout cc)) /\
  cc = {| CommandConfigT.Command := scriptPath;
          CommandConfigT.Env := environment_entries (Environment c);
          CommandConfigT.WorkingDirectory := WorkingDirectory c;
          CommandConfigT.RunInBackground := Daemon c;
          CommandConfigT.LogFilePath :=
            filepath_Join utils_LogsDir ("exec_" +:+ Name c +:+ ".log");
          CommandConfigT.Timeout := CommandConfigT.Timeout cc |}.
Proof.
  intros c scriptPath. subst c scriptPath. unfold createLocalExec. run_M.
  destruct (os_WriteFile _ _ _) eqn:Hwrite; cbn.
  { intros H. repeat (apply elem_of_cons in H as [H|H]; [discriminate|]).
    by apply elem_of_nil in H. }
  destruct (String.eqb (Timeout (config p)) "") eqn:Hnone; cbn.
  - apply String.eqb_eq in Hnone.
    destruct (Execute (command p) _) as [pid [e|]]; cbn.
    all: intros H; repeat (apply elem_of_cons in H as [H|H];
                           [first [discriminate|injection H as ->]|]).
    all: try by apply elem_of_nil in H.
    all: split; [by eauto|]; split; [by left|done].
  - apply String.eqb_neq in Hnone.
    destruct (time_ParseDuration (Timeout (config p))) as [d|e|m] eqn:Hparse; cbn.
    2,3: intros H; repeat (apply elem_of_cons in H as [H|H]; [discriminate|]);
         by apply elem_of_nil in H.
    destruct (Daemon (config p)) eqn:Hdaemon; cbn.
    all: destruct (Execute (command p) _) as [pid [e|]]; cbn.
    all: intros H; repeat (apply elem_of_cons in H as [H|H];
                           [first [discriminate|injection H as ->]|]).
    all: try by apply elem_of_nil in H.
    all: split; [by eauto|]; split; [by right|done].
Qed.

Lemma with_PID_same (c : Exec) : with_PID c (PID c) = c.
Proof. by destruct c. Qed.

(** [Create] changes the resource in one case only: a local exec that
    was run without error gets the pid the command client returned.  An
    exec with an image or a target is left as it is. *)
Theorem Create_sets_PID (p : Provider) (c' : Exec) :
  (Create p).1 = Ok c' ->
  c' = with_PID (config p) (PID c') /\
  if is_remote (config p) then PID c' = PID (config p)
  else exists cc, EvExecute cc ∈ (Create p).2 /\
                  Execute (command p) cc = (PID c', None).
Proof.
  unfold Create.
  destruct (is_remote (config p)).
  - destruct (createRemoteExec p) as [[| |] tr]; run_M; [|done..].
    intros [= <-]. by rewrite with_PID_same.
  - unfold createLocalExec. run_M.
    destruct (os_WriteFile _ _ _); cbn; [done|].
    destruct (String.eqb (Timeout (config p)) ""); cbn.
    + destruct (Execute (command p) _) as [pid [e|]] eqn:Hexec; cbn; [done|].
      intros [= <-]. split; [done|]. eexists. split; [|exact Hexec].
      right. right. by left.
    + destruct (time_ParseDuration (Timeout (config p))) as [d|e|m]; cbn; [|done..].
      destruct (Daemon (config p)) eqn:Hd; cbn.
      all: destruct (Execute (command p) _) as [pid [e|]] eqn:Hexec; cbn; [done|].
      all: intros [= <-]; split; [done|]; eexists; split; [|exact Hexec].
      * do 3 right. by left.
      * right. right. by left.
Qed.

(** On a script without a carriage return followed by a newline the
    replacement changes nothing. *)
Lemma replace_crlf_id (s : string) :
  strings_Contains s (String (ascii_of_nat 13) (String (ascii_of_nat 10) "")) = false ->
  replace_crlf s = s.
Proof.
  induction s as [|c s IH]; [done|].
  cbn [strings_Contains]. intros H. apply orb_false_iff in H as [Hhere Hrest].
  cbn [replace_crlf]. destruct s as [|c' s']; [done|].
  destruct (Ascii.eqb c (ascii_of_nat 13) && Ascii.eqb c' (ascii_of_nat 10)) eqn:E.
  - apply andb_true_iff in E as [E1 E2].
    apply Ascii.eqb_eq in E1 as ->. apply Ascii.eqb_eq in E2 as ->.
    unfold strings_HasPrefix in Hhere. cbn in Hhere. by destruct s'.
  - by rewrite (IH Hrest).
Qed.

End Create.

(** ** Instances *)

(** A container client on a host with one container named [web]; a
    script consisting of [exit 1] fails wherever it is run. *)
Definition docker : ContainerTasks :=
  {| FindContainerIDs name := if String.eqb name "web" then Ok ["c1"] else Ok [];
     ExecuteScript id script envs wd user group t :=
       if String.eqb script "exit 1" then Some (ErrorOf "exit status 1") else None;
     RemoveContainer id force := None;
     PullImage image force := None;
     CreateContainer c := Ok "c2" |}.

Definition sh : Command := {| Execute cc := (4242%Z, None) |}.

Definition fqdn (name module type : string) : string :=
  name +:+ "." +:+ type +:+ ".jumppad.dev".

Definition parse_seconds (s : string) : result Z :=
  if String.eqb s "30s" then Ok (30 * 1000000000)%Z
  else Err (ErrorOf ("time: invalid duration " +:+ s)).

Definition writes (name contents : string) (perm : Z) : option error := None.

Abbreviation Create_here :=
  (Create fqdn "/home/u/.jumppad/tmp" "/home/u/.jumppad/logs" Dirhash.unix_Join
     "linux" writes parse_seconds).
Abbreviation createLocalExec_here :=
  (createLocalExec "/home/u/.jumppad/tmp" "/home/u/.jumppad/logs" Dirhash.unix_Join
     "linux" writes parse_seconds).

Definition exec_of (script : string) (image : option ImageT.t) (target : option TargetT)
    (daemon : bool) (timeout : string) : Provider :=
  {| config :=
       {| ID := "resource.exec.test"; Name := "test"; Module_ := ""; Type_ := "exec";
          Script := script; WorkingDirectory := "/"; Daemon := daemon;
          Timeout := timeout; Environment := [("GREETING", "hello")];
          Image := image; Target := target; Networks := []; Volumes := [];
          RunAs := None; PID := 0 |};
     container := docker;
     command := sh |}.

Definition alpine : ImageT.t :=
  {| ImageT.Name := "alpine"; ImageT.Username := ""; ImageT.Password := "" |}.

Lemma createRemoteExec_on_target_witness :
  createRemoteExec fqdn (exec_of "ls" None (Some {| ContainerName := "db" |}) false "") =
  (Err (ErrorOf "unable to find exec target db"), [EvFindContainerIDs "db"]).
Proof.
  apply (proj1 (proj2 (createRemoteExec_on_target fqdn
                         (exec_of "ls" None (Some {| ContainerName := "db" |}) false "")
                         {| ContainerName := "db" |} eq_refl)) []).
  - reflexivity.
  - cbn. lia.
Defined.

Lemma createRemoteExec_with_image_witness :
  createRemoteExec fqdn (exec_of "exit 1" (Some alpine) None false "") =
  (Err (ErrorOf "unable to execute command: in remote container: exit status 1"),
   [EvPullImage alpine false;
    EvCreateContainer
      (new_container fqdn (config (exec_of "exit 1" (Some alpine) None false "")) alpine);
    EvExecuteScript "c2" "exit 1" ["GREETING=hello"] "/" "" "" 300;
    EvLog "error" "error executing command"]).
Proof.
  apply (createRemoteExec_with_image fqdn
           (exec_of "exit 1" (Some alpine) None false "") alpine "c2"); reflexivity.
Defined.

Lemma createRemoteExec_removes_on_success_witness :
  (createRemoteExec fqdn (exec_of "ls" (Some alpine) None false "")).1 = Ok tt /\
  true = true /\
  Target (config (exec_of "ls" (Some alpine) None false "")) = None /\
  exists new,
    EvCreateContainer new ∈ (createRemoteExec fqdn (exec_of "ls" (Some alpine) None false "")).2 /\
    CreateContainer docker new = Ok "c2".
Proof.
  apply (createRemoteExec_removes_on_success fqdn
           (exec_of "ls" (Some alpine) None false "") "c2" true).
  vm_compute. do 3 right. by left.
Defined.

Definition daemon_exec : Provider := exec_of "sleep 60" None None true "30s".

Definition daemon_cc : CommandConfigT.t :=
  {| CommandConfigT.Command := "/home/u/.jumppad/tmp/exec_test.sh";
     CommandConfigT.Env := ["GREETING=hello"];
     CommandConfigT.WorkingDirectory := "/";
     CommandConfigT.RunInBackground := true;
     CommandConfigT.LogFilePath := "/home/u/.jumppad/logs/exec_test.log";
     CommandConfigT.Timeout := 30 * 1000000000 |}.

Lemma createLocalExec_runs_witness :
  (exists contents rest,
     (createLocalExec_here daemon_exec).2 =
       EvWriteFile "/home/u/.jumppad/tmp/exec_test.sh" contents 493 :: rest /\
     writes "/home/u/.jumppad/tmp/exec_test.sh" contents 493 = None) /\
  (Timeout (config daemon_exec) = "" /\ CommandConfigT.Timeout daemon_cc = 0%Z \/
   Timeout (config daemon_exec) <> "" /\
   parse_seconds (Timeout (config daemon_exec)) = Ok (CommandConfigT.Timeout daemon_cc)) /\
  daemon_cc = daemon_cc.
Proof.
  apply (createLocalExec_runs "/home/u/.jumppad/tmp" "/home/u/.jumppad/logs"
           Dirhash.unix_Join "linux" writes parse_seconds daemon_exec daemon_cc).
  vm_compute. do 2 right. by left.
Defined.

Lemma Create_sets_PID_witness :
  (Create_here (exec_of "sleep 60" None None true "")).1 =
    Ok (with_PID (config (exec_of "sleep 60" None None true "")) 4242) /\
  exists cc, EvExecute cc ∈ (Create_here (exec_of "sleep 60" None None true "")).2 /\
             Execute sh cc = (4242%Z, None).
Proof.
  split; [reflexivity|].
  apply (proj2 (Create_sets_PID fqdn "/home/u/.jumppad/tmp" "/home/u/.jumppad/logs"
                  Dirhash.unix_Join "linux" writes parse_seconds
                  (exec_of "sleep 60" None None true "")
                  (with_PID (config (exec_of "sleep 60" None None true "")) 4242)
                  eq_refl)).
Defined.


End ExecCreate.

(** * Package cmd: the [down] command *)

Module Cmd.

(** What the [Run] function of [newDestroyCmd] meets: whether the engine
    can be created, what [engine.Destroy] returns, where the data and
    library folders are, and the state of the connector. *)
Record Setting : Type := {
  createEngine : option error;
  engine_Destroy : option error;
  utils_DataFolder : string;
  utils_LibraryFolder : string;
  cc_IsRunning : bool;
  cc_Stop : option error
}.

(** What the command does, in order. *)
Inductive Step : Type :=
  | LogError (msg : string)
  | CallEngineDestroy
  | RemoveAll (path : string)
  | CallConnectorStop.

(** The [Run] function of the command returned by [newDestroyCmd]. *)
Definition down (s : Setting) : list Step :=
  match createEngine s with
  | Some _ => [LogError "Unable to create engine"]
  | None =>
      CallEngineDestroy ::
      match engine_Destroy s with
      | Some _ => [LogError "Unable to destroy stack"]
      | None =>
          RemoveAll (utils_DataFolder s) ::
          RemoveAll (utils_LibraryFolder s) ::
          (if cc_IsRunning s
           then CallConnectorStop ::
                match cc_Stop s with
                | Some _ => [LogError "Unable to destroy jumppad daemon"]
                | None => []
                end
           else [])
      end
  end.

(** A step that is none of the listed ones is not in the list. *)
Ltac absent H :=
  repeat (apply elem_of_cons in H; destruct H as [H|H]; [discriminate|]);
  by apply elem_of_nil in H.

(** [down] deletes a folder, or stops the connector, only after the
    engine was created and has destroyed the resources without error;
    what it deletes then is the data folder and the library folder, in
    that order, and nothing else.  When the engine cannot be created,
    nothing is destroyed at all. *)
Theorem down_deletes_after_destroy (s : Setting) :
  (forall path, RemoveAll path ∈ down s ->
     createEngine s = None /\ engine_Destroy s = None /\
     (path = utils_DataFolder s \/ path = utils_LibraryFolder s)) /\
  (CallConnectorStop ∈ down s ->
     createEngine s = None /\ engine_Destroy s = None /\ cc_IsRunning s = true) /\
  (createEngine s = None -> engine_Destroy s = None ->
     exists rest, down s = [CallEngineDestroy; RemoveAll (utils_DataFolder s);
                            RemoveAll (utils_LibraryFolder s)] ++ rest) /\
  (CallEngineDestroy ∈ down s <-> createEngine s = None).
Proof.
  unfold down.
  destruct (createEngine s) as [e|]; [|destruct (engine_Destroy s) as [e|]].
  - split; [|split; [|split; [|split]]].
    + intros path H. absent H.
    + intros H. absent H.
    + done.
    + intros H. absent H.
    + done.
  - split; [|split; [|split; [|split]]].
    + intros path H. absent H.
    + intros H. absent H.
    + done.
    + done.
    + intros _. by left.
  - split; [|split; [|split; [|split]]].
    + intros path H. split; [done|]. split; [done|].
      apply elem_of_cons in H; destruct H as [H|H]; [discriminate|].
      apply elem_of_cons in H; destruct H as [H|H]; [injection H as ->; by left|].
      apply elem_of_cons in H; destruct H as [H|H]; [injection H as ->; by right|].
      destruct (cc_IsRunning s), (cc_Stop s); absent H.
    + intros H. split; [done|]. split; [done|].
      destruct (cc_IsRunning s); [done|].
      absent H.
    + intros _ _. eexists. reflexivity.
    + done.
    + intros _. by left.
Qed.

End Cmd.
